(** * Cat-voting demo: the Express/SQLite backend and the winner screen

    A shallow embedding of [backend/server.js] (the six route handlers, the
    SQL they send and the three tables they touch) and of the [reduce] that
    [WinnerScreen] uses to pick a winner on the client.

    Conventions of the embedding:
    - a JavaScript value is an [option json]: [None] is [undefined];
    - the database is a record of three row lists plus the AUTOINCREMENT
      counters of the tables the server inserts into;
    - [db.run], [db.all] and [db.get] never call back synchronously: a
      handler first runs to the end of its body, queueing statements, and
      only then does the event loop execute the statements and run the
      callbacks.  [serve] runs the queue in the order of issue.  The
      inserts of [POST /api/cats] are issued outside [db.serialize] and
      may reach the Store in another order: what is proved of re-seeding
      is proved for every order of the queue;
    - a Store failure that does not come from a constraint (I/O error,
      locked file, missing table) is an input: one boolean per statement;
    - the [created_at] columns are filled by DEFAULT CURRENT_TIMESTAMP and
      read by no query; they are left out of the rows;
    - JSON numbers are integers; [serve_all] serves requests one at a
      time, each to its last callback; the logging SDK and the screens'
      layout are left out. *)

From Stdlib Require Import ZArith List String Ascii Bool Permutation Lia.
From Stdlib Require Import DecimalString Sorted.
Import ListNotations.

Local Open Scope string_scope.
Local Open Scope Z_scope.
Local Open Scope list_scope.

(** ** JSON and JavaScript values *)

#[warnings="-register-all"]
Inductive json : Type :=
| JNull
| JBool (b : bool)
| JNumber (n : Z) (* integers only *)
| JString (s : string)
| JArray (items : list json)
| JObject (fields : list (string * json)).

(** [None] stands for [undefined]. *)
Definition jsval : Type := option json.

Fixpoint assoc (k : string) (fs : list (string * json)) : jsval :=
  match fs with
  | [] => None
  | (k', v) :: rest => if String.eqb k k' then Some v else assoc k rest
  end.

(** Property read [j.k] / destructuring [{ k } = j] on a non-null value. *)
Definition prop (k : string) (j : json) : jsval :=
  match j with
  | JObject fs => assoc k fs
  | _ => None
  end.

(** JavaScript truthiness, as used by [!x] and [x || y]. *)
Definition truthy (v : jsval) : bool :=
  match v with
  | None => false
  | Some JNull => false
  | Some (JBool b) => b
  | Some (JNumber n) => negb (n =? 0)
  | Some (JString s) => negb (String.eqb s "")
  | Some (JArray _) => true
  | Some (JObject _) => true
  end.

(** [list.includes(v)] for a list of string literals (SameValueZero). *)
Definition includes (l : list string) (v : jsval) : bool :=
  match v with
  | Some (JString s) => existsb (String.eqb s) l
  | _ => false
  end.

Definition isArray (v : jsval) : option (list json) :=
  match v with
  | Some (JArray items) => Some items
  | _ => None
  end.

(** ** The Store: rows, tables, statements *)

Record cat_row : Type := mkCat {
  cat_id : Z;
  image_url : string;
  external_id : option string
}.

Record vote_row : Type := mkVote {
  vote_id : Z;
  vote_cat_id : Z;
  vote_type : string
}.

Record winner_row : Type := mkWinner {
  winner_id : Z;
  winner_cat_id : Z;
  month_year : string;
  upvote_count : option Z
}.

Record db : Type := mkDb {
  cats : list cat_row;
  votes : list vote_row;
  monthly_winners : list winner_row;
  cats_seq : Z;
  votes_seq : Z
}.

Definition empty_db : db := mkDb [] [] [] 0 0.

(** A row of the [/api/cats] result set. *)
Record cat_score : Type := mkScore {
  score_id : Z;
  score_image_url : string;
  upvotes : Z;
  downvotes : Z
}.

(** A row of the [/api/winner] result set. *)
Record winner_view : Type := mkView {
  view_id : Z;
  view_image_url : string;
  view_upvote_count : option Z
}.

Inductive stmt : Type :=
| SelectCats
| SelectWinner (month : string)
| InsertVote (cat vote : jsval)
| InsertCatOrIgnore (url ext : jsval)
| DeleteVotes
| DeleteWinners
| DeleteCats.

Inductive sql_error : Type :=
| SQLITE_CONSTRAINT
| SQLITE_FAULT.

(** What a statement hands to its callback: [err], or the rows. *)
Inductive result : Type :=
| Failure (e : sql_error)
| RunOk
| AllOk (rows : list cat_score)
| GetOk (row : option winner_view).

(** ** Generic pieces of the query engine

    ORDER BY is an insertion sort: rows that tie stay in the order they
    came in.  SQLite promises no order among ties, and no property below
    depends on one. *)

Section OrderBy.
Variable A : Type.
(** [before x y]: [x] is placed before [y]. *)
Variable before : A -> A -> bool.

Fixpoint insert_sorted (x : A) (l : list A) : list A :=
  match l with
  | [] => [x]
  | y :: rest => if before x y then x :: y :: rest
                 else y :: insert_sorted x rest
  end.

Definition order_by (l : list A) : list A :=
  fold_right insert_sorted [] l.
End OrderBy.

Arguments insert_sorted {A} before x l.
Arguments order_by {A} before l.

(** SQLite orders NULL below every integer. *)
Definition sql_leb (a b : option Z) : bool :=
  match a, b with
  | None, _ => true
  | Some _, None => false
  | Some x, Some y => x <=? y
  end.

Definition ids (cs : list cat_row) : list Z := map cat_id cs.

Definition max_id (l : list Z) : Z := fold_right Z.max 0 l.

(** AUTOINCREMENT: one more than the largest id ever handed out. *)
Definition next_id (seq : Z) (used : list Z) : Z := Z.max seq (max_id used) + 1.

(** *** GET /api/cats: LEFT JOIN, GROUP BY, SUM(CASE ...), ORDER BY *)

Definition left_join (cs : list cat_row) (vs : list vote_row)
  : list (cat_row * option vote_row) :=
  flat_map (fun c =>
    match filter (fun v => vote_cat_id v =? cat_id c) vs with
    | [] => [(c, None)]
    | ms => map (fun v => (c, Some v)) ms
    end) cs.

(** Adds a joined row to the group of its [cats.id], opening a new group
    at the end when there is none. *)
Fixpoint add_to_group (r : cat_row * option vote_row)
    (gs : list (cat_row * list (option vote_row)))
  : list (cat_row * list (option vote_row)) :=
  match gs with
  | [] => [(fst r, [snd r])]
  | (c, rows) :: rest =>
      if cat_id c =? cat_id (fst r) then (c, rows ++ [snd r]) :: rest
      else (c, rows) :: add_to_group r rest
  end.

Definition group_by_cat_id (js : list (cat_row * option vote_row))
  : list (cat_row * list (option vote_row)) :=
  fold_left (fun gs r => add_to_group r gs) js [].

(** [CASE WHEN votes.vote_type = lit THEN 1 ELSE 0 END]; the comparison
    with the NULL of an unmatched cat is not true. *)
Definition case_when (lit : string) (v : option vote_row) : Z :=
  match v with
  | Some r => if String.eqb (vote_type r) lit then 1 else 0
  | None => 0
  end.

Definition sum (l : list Z) : Z := fold_right Z.add 0 l.

Definition aggregate (g : cat_row * list (option vote_row)) : cat_score :=
  mkScore (cat_id (fst g)) (image_url (fst g))
          (sum (map (case_when "upvote") (snd g)))
          (sum (map (case_when "downvote") (snd g))).

Definition select_cats (d : db) : list cat_score :=
  order_by (fun x y => upvotes y <=? upvotes x)
           (map aggregate (group_by_cat_id (left_join (cats d) (votes d)))).

(** *** GET /api/winner: JOIN, WHERE, ORDER BY ... DESC, LIMIT 1 *)

Definition join_winner (cs : list cat_row) (w : winner_row) : list winner_view :=
  map (fun c => mkView (cat_id c) (image_url c) (upvote_count w))
      (filter (fun c => winner_cat_id w =? cat_id c) cs).

Definition select_winner (month : string) (d : db) : option winner_view :=
  hd_error
    (order_by (fun x y => sql_leb (view_upvote_count y) (view_upvote_count x))
       (flat_map (join_winner (cats d))
          (filter (fun w => String.eqb (month_year w) month)
                  (monthly_winners d)))).

(** ** Executing a statement *)

Section Store.
(** How SQLite stores a bound parameter that is neither NULL nor of the
    column's own type is left open: [integer_affinity j] is the integer
    an INTEGER column keeps for a string, array or object [j] (if its
    text reads as one), [text_affinity j] the text a TEXT column keeps
    for a boolean, number, array or object. *)
Variable integer_affinity : json -> option Z.
Variable text_affinity : json -> option string.

(** A parameter bound into an INTEGER column; [None] when the column
    would hold NULL or something that is not an integer. *)
Definition bind_integer (v : jsval) : option Z :=
  match v with
  | None => None
  | Some JNull => None
  | Some (JNumber n) => Some n
  | Some (JBool b) => Some (if b then 1 else 0)
  | Some j => integer_affinity j
  end.

(** A parameter bound into a TEXT column; [None] is NULL.  [undefined]
    leaves the parameter unbound, which SQLite reads as NULL. *)
Definition bind_text (v : jsval) : option string :=
  match v with
  | None => None
  | Some JNull => None
  | Some (JString s) => Some s
  | Some j => text_affinity j
  end.

Definition has_external_id (e : string) (c : cat_row) : bool :=
  match external_id c with
  | Some e' => String.eqb e' e
  | None => false
  end.

Definition references (cs : list cat_row) (k : Z) : bool :=
  existsb (Z.eqb k) (ids cs).

(** [INSERT INTO votes (cat_id, vote_type) VALUES (?, ?)] with
    [PRAGMA foreign_keys = ON]: both columns are NOT NULL and [cat_id]
    must be the id of a cat. *)
Definition insert_vote (cat vote : jsval) (d : db) : result * db :=
  match bind_integer cat, bind_text vote with
  | Some k, Some t =>
      if references (cats d) k then
        let i := next_id (votes_seq d) (map vote_id (votes d)) in
        (RunOk, mkDb (cats d) (votes d ++ [mkVote i k t])
                     (monthly_winners d) (cats_seq d) i)
      else (Failure SQLITE_CONSTRAINT, d)
  | _, _ => (Failure SQLITE_CONSTRAINT, d)
  end.

(** An id of the cats table drawn and not used: the counter moves on,
    the rows stay. *)
Definition consume_id (d : db) : db :=
  mkDb (cats d) (votes d) (monthly_winners d)
       (next_id (cats_seq d) (ids (cats d))) (votes_seq d).

(** [INSERT OR IGNORE INTO cats (image_url, external_id) VALUES (?, ?)]:
    a row that breaks NOT NULL on [image_url] or UNIQUE on [external_id]
    is skipped without an error; NULL external ids never collide.  The
    id is drawn before the constraints are checked, so a skipped row
    uses up an id as well. *)
Definition insert_cat_or_ignore (url ext : jsval) (d : db) : result * db :=
  match bind_text url with
  | None => (RunOk, consume_id d)
  | Some u =>
      let fresh :=
        match bind_text ext with
        | Some e => negb (existsb (has_external_id e) (cats d))
        | None => true
        end in
      if fresh then
        let i := next_id (cats_seq d) (ids (cats d)) in
        (RunOk, mkDb (cats d ++ [mkCat i u (bind_text ext)]) (votes d)
                     (monthly_winners d) i (votes_seq d))
      else (RunOk, consume_id d)
  end.

(** [DELETE FROM cats]: refused as a whole while a vote or a winner
    still points at one of the cats. *)
Definition delete_cats (d : db) : result * db :=
  if existsb (fun v => references (cats d) (vote_cat_id v)) (votes d)
     || existsb (fun w => references (cats d) (winner_cat_id w))
                (monthly_winners d)
  then (Failure SQLITE_CONSTRAINT, d)
  else (RunOk, mkDb [] (votes d) (monthly_winners d)
                    (cats_seq d) (votes_seq d)).

Definition exec (fault : bool) (s : stmt) (d : db) : result * db :=
  if fault then (Failure SQLITE_FAULT, d)
  else
    match s with
    | SelectCats => (AllOk (select_cats d), d)
    | SelectWinner m => (GetOk (select_winner m d), d)
    | InsertVote cat vote => insert_vote cat vote d
    | InsertCatOrIgnore url ext => insert_cat_or_ignore url ext d
    | DeleteVotes =>
        (RunOk, mkDb (cats d) [] (monthly_winners d)
                     (cats_seq d) (votes_seq d))
    | DeleteWinners =>
        (RunOk, mkDb (cats d) (votes d) [] (cats_seq d) (votes_seq d))
    | DeleteCats => delete_cats d
    end.

(** ** Handlers, callbacks and the event loop *)

Inductive response : Type :=
| Reply (status : Z) (body : json)
(** A handler threw: Express answers through its default error handler. *)
| Uncaught.

Definition status_of (r : response) : Z :=
  match r with
  | Reply s _ => s
  | Uncaught => 500
  end.

(** What a request's closures share: the counter of [POST /api/cats],
    the response once sent, and what went to [console.error]. *)
Record hstate : Type := mkH {
  inserted : Z;
  sent : option response;
  console : list string
}.

Definition send (r : response) (h : hstate) : hstate :=
  match sent h with
  | None => mkH (inserted h) (Some r) (console h)
  | Some _ => h
  end.

Definition console_error (msg : string) (h : hstate) : hstate :=
  mkH (inserted h) (sent h) (console h ++ [msg]).

Record job : Type := mkJob {
  job_stmt : stmt;
  job_callback : result -> hstate -> hstate
}.

(** The outcome of a handler's body: the statements it queued, the
    closure state it left, and whether it ended by throwing. *)
Record sync : Type := mkSync {
  queued : list job;
  after : hstate;
  threw : bool
}.

Definition error_body (msg : string) : json := JObject [("error", JString msg)].

Definition score_json (r : cat_score) : json :=
  JObject [("id", JNumber (score_id r));
           ("image_url", JString (score_image_url r));
           ("upvotes", JNumber (upvotes r));
           ("downvotes", JNumber (downvotes r))].

Definition sql_json (v : option Z) : json :=
  match v with
  | Some n => JNumber n
  | None => JNull
  end.

Definition view_json (r : winner_view) : json :=
  JObject [("id", JNumber (view_id r));
           ("image_url", JString (view_image_url r));
           ("upvote_count", sql_json (view_upvote_count r))].

Definition fresh : hstate := mkH 0 None [].

(** [app.get('/api/cats')] *)
Definition listCats : sync :=
  mkSync
    [mkJob SelectCats (fun r h =>
       match r with
       | Failure _ =>
           send (Reply 500 (error_body "Failed to fetch cats"))
                (console_error "Error fetching cats:" h)
       | AllOk rows => send (Reply 200 (JArray (map score_json rows))) h
       | _ => send (Reply 200 (JArray [])) h
       end)]
    fresh false.

(** [new Date()], read through its UTC fields; [month] counts from 1. *)
Record date : Type := mkDate {
  year : nat;
  month : nat;
  day : nat;
  hours : nat;
  minutes : nat;
  seconds : nat;
  millis : nat
}.

Definition digit (n : nat) : ascii := ascii_of_nat (48 + n mod 10)%nat.

(** The last [width] decimal digits of [n], zero-padded. *)
Fixpoint pad (width n : nat) : string :=
  match width with
  | O => ""
  | S w => String.append (pad w (n / 10)%nat) (String (digit n) "")
  end.

Fixpoint concat_all (parts : list string) : string :=
  match parts with
  | [] => ""
  | p :: rest => String.append p (concat_all rest)
  end.

(** [Date.prototype.toISOString]: four year digits up to 9999, the
    expanded form with a sign and six digits beyond. *)
Definition toISOString (t : date) : string :=
  concat_all
    [if Z.of_nat (year t) <=? 9999 then pad 4 (year t)
     else String.append "+" (pad 6 (year t));
     "-"; pad 2 (month t); "-"; pad 2 (day t); "T";
     pad 2 (hours t); ":"; pad 2 (minutes t); ":"; pad 2 (seconds t);
     "."; pad 3 (millis t); "Z"].

Definition slice (from to : nat) (s : string) : string :=
  substring from (to - from) s.

Definition currentMonth (now : date) : string := slice 0 7 (toISOString now).

(** [app.get('/api/winner')] *)
Definition getCurrentWinner (now : date) : sync :=
  mkSync
    [mkJob (SelectWinner (currentMonth now)) (fun r h =>
       match r with
       | Failure _ =>
           send (Reply 500 (error_body "Failed to fetch winner"))
                (console_error "Error fetching winner:" h)
       | GetOk (Some row) => send (Reply 200 (view_json row)) h
       | _ => send (Reply 200 JNull) h
       end)]
    fresh false.

(** [app.post('/api/votes')] *)
Definition submitVote (body : json) : sync :=
  let cat := prop "cat_id" body in
  let vote := prop "vote_type" body in
  if negb (truthy cat) || negb (truthy vote)
     || negb (includes ["upvote"; "downvote"] vote)
  then mkSync [] (send (Reply 400 (error_body "Invalid cat_id or vote_type")) fresh)
              false
  else
    mkSync
      [mkJob (InsertVote cat vote) (fun r h =>
         match r with
         | Failure _ =>
             send (Reply 500 (error_body "Failed to add vote"))
                  (console_error "Error adding vote:" h)
         | _ => send (Reply 200 (JObject [("success", JBool true);
                                          ("message", JString "Vote recorded")])) h
         end)]
      fresh false.

(** The callback of each insert of [POST /api/cats]. *)
Definition count_insert (r : result) (h : hstate) : hstate :=
  match r with
  | Failure _ => console_error "Error inserting cat:" h
  | _ => mkH (inserted h + 1) (sent h) (console h)
  end.

(** [cats.forEach(cat => db.run(..., [cat.url, cat.id], ...))]: reading a
    property of [null] throws and ends the loop. *)
Fixpoint forEach_insert (items : list json) : list job * bool :=
  match items with
  | [] => ([], false)
  | JNull :: _ => ([], true)
  | c :: rest =>
      let (js, t) := forEach_insert rest in
      (mkJob (InsertCatOrIgnore (prop "url" c) (prop "id" c)) count_insert :: js, t)
  end.

(** [app.post('/api/cats')] *)
Definition seedCats (body : json) : sync :=
  match isArray (prop "cats" body) with
  | None => mkSync [] (send (Reply 400 (error_body "Invalid cats data")) fresh) false
  | Some [] => mkSync [] (send (Reply 400 (error_body "Invalid cats data")) fresh) false
  | Some items =>
      let h := mkH 0 None [] in
      let (js, t) := forEach_insert items in
      if t then mkSync js h true
      else mkSync js
             (send (Reply 200 (JObject [("success", JBool true);
                                        ("inserted", JNumber (inserted h))])) h)
             false
  end.

Definition log_only (msg : string) (r : result) (h : hstate) : hstate :=
  match r with
  | Failure _ => console_error msg h
  | _ => h
  end.

(** [app.post('/api/clear')] *)
Definition clearAll : sync :=
  mkSync
    [mkJob DeleteVotes (log_only "Error clearing votes:");
     mkJob DeleteWinners (log_only "Error clearing winners:");
     mkJob DeleteCats (log_only "Error clearing cats:")]
    (send (Reply 200 (JObject [("success", JBool true);
                               ("message", JString "Database cleared")])) fresh)
    false.

(** [app.get('/api/health')] *)
Definition health : sync :=
  mkSync [] (send (Reply 200 (JObject [("status", JString "ok")])) fresh) false.

Inductive request : Type :=
| GET_cats
| GET_winner (now : date)
| POST_votes (body : json)
| POST_cats (body : json)
| POST_clear
| GET_health.

Definition route (req : request) : sync :=
  match req with
  | GET_cats => listCats
  | GET_winner now => getCurrentWinner now
  | POST_votes body => submitVote body
  | POST_cats body => seedCats body
  | POST_clear => clearAll
  | GET_health => health
  end.

(** The event loop: each queued statement is executed, with the next
    fault bit (none left means no fault), and its callback is run. *)
Fixpoint run_jobs (faults : list bool) (js : list job) (d : db) (h : hstate)
  : db * hstate * list (stmt * result) :=
  match js with
  | [] => (d, h, [])
  | j :: rest =>
      let '(r, d1) := exec (hd false faults) (job_stmt j) d in
      let '(d2, h2, tr) := run_jobs (tl faults) rest d1 (job_callback j r h) in
      (d2, h2, (job_stmt j, r) :: tr)
  end.

Record served : Type := mkServed {
  response_sent : option response;
  store : db;
  trace : list (stmt * result);
  closure : hstate
}.

(** One request, from the handler's body to its last callback. *)
Definition serve (faults : list bool) (req : request) (d : db) : served :=
  let s := route req in
  let h := if threw s then send Uncaught (after s) else after s in
  let '(d', h', tr) := run_jobs faults (queued s) d h in
  mkServed (sent h') d' tr h'.

(** Requests served one after the other, each with its own faults. *)
Definition serve_all (script : list (list bool * request)) (d : db) : db :=
  fold_left (fun d' fr => store (serve (fst fr) (snd fr) d')) script d.

(** The database after the insert of one entry of the batch. *)
Definition seed_one (d : db) (c : json) : db :=
  snd (insert_cat_or_ignore (prop "url" c) (prop "id" c) d).

Definition seed_store (items : list json) (d : db) : db :=
  fold_left seed_one items d.

End Store.

(** ** One reading of the affinities, to run the model

    The driver binds a string as text, a boolean as the integer 0 or 1, a
    number as an integer when it fits 32 bits and as a real otherwise, and
    an array or an object as the text of its [toString()].  A TEXT column
    keeps an integer or a real as its text.  An INTEGER column keeps a
    text that reads as a number with an integral value as that integer;
    the value is read exactly, where SQLite goes through a double, which
    differs only from the sixteenth significant digit on.  The functions
    are total; [bind_integer] and [bind_text] call them on arrays and
    objects, and on the values of the other column type. *)

Definition is_digit (c : ascii) : bool :=
  let n := nat_of_ascii c in ((48 <=? n) && (n <=? 57))%nat.

(** Space, tab, line feed, vertical tab, form feed, carriage return. *)
Definition is_space (c : ascii) : bool :=
  let n := nat_of_ascii c in (((9 <=? n) && (n <=? 13)) || (n =? 32))%nat.

Fixpoint skip_spaces (s : string) : string :=
  match s with
  | String c rest => if is_space c then skip_spaces rest else s
  | EmptyString => s
  end.

(** The leading digits of [s] appended to [acc], how many they are, and
    what follows them. *)
Fixpoint read_digits (s : string) (acc : Z) (count : nat) : Z * nat * string :=
  match s with
  | String c rest =>
      if is_digit c
      then read_digits rest (10 * acc + (Z.of_nat (nat_of_ascii c) - 48)) (S count)
      else (acc, count, s)
  | EmptyString => (acc, count, s)
  end.

Definition read_sign (s : string) : bool * string :=
  match s with
  | String "-"%char rest => (true, rest)
  | String "+"%char rest => (false, rest)
  | _ => (false, s)
  end.

(** [mantissa * 10 ^ shift] when it is an integer; a value too small
    for a double (at most [2 ^ -1075]) reads as 0.  [digits] bounds the
    number of digits of [mantissa]. *)
Definition scaled (mantissa shift : Z) (digits : nat) : option Z :=
  if mantissa =? 0 then Some 0
  else if 0 <=? shift then
    if shift <=? 18 then Some (mantissa * 10 ^ shift) else None
  else if Z.of_nat digits + 330 <? - shift then Some 0
  else if mantissa mod 10 ^ (- shift) =? 0 then Some (mantissa / 10 ^ (- shift))
  else if mantissa * 2 ^ 1075 <=? 10 ^ (- shift) then Some 0
  else None.

(** The integer that a text holds when it is a decimal literal: spaces,
    a sign, digits with an optional point, an optional exponent, spaces;
    [None] when it is no such literal, when its value is not an integer,
    or when the integer does not fit 64 bits. *)
Definition numeric_integer (s : string) : option Z :=
  let (negative, s1) := read_sign (skip_spaces s) in
  let '(whole, n_whole, s2) := read_digits s1 0 0 in
  let '(mantissa, n_fraction, s3) :=
    match s2 with
    | String "."%char rest => read_digits rest whole 0
    | _ => (whole, 0%nat, s2)
    end in
  let exponent : option (Z * string) :=
    match s3 with
    | String c rest =>
        if Ascii.eqb c "e"%char || Ascii.eqb c "E"%char then
          let (negative_exponent, r1) := read_sign rest in
          let '(e, n, r2) := read_digits r1 0 0 in
          if (n =? 0)%nat then None
          else Some (if negative_exponent then - e else e, r2)
        else Some (0, s3)
    | EmptyString => Some (0, s3)
    end in
  if (n_whole + n_fraction =? 0)%nat then None
  else
    match exponent with
    | None => None
    | Some (e, s4) =>
        match skip_spaces s4 with
        | EmptyString =>
            match scaled mantissa (e - Z.of_nat n_fraction)
                    (n_whole + n_fraction) with
            | Some v =>
                let n := if negative then - v else v in
                if (- 2 ^ 63 <=? n) && (n <? 2 ^ 63) then Some n else None
            | None => None
            end
        | _ => None
        end
    end.

Definition decimal_text (n : Z) : string := NilZero.string_of_int (Z.to_int n).

Definition join_with (sep : string) (parts : list string) : string :=
  match parts with
  | [] => ""
  | p :: rest => fold_left (fun acc q => String.append acc (String.append sep q)) rest p
  end.

(** [String(j)]; inside an array, null reads as the empty text. *)
Fixpoint js_to_string (j : json) : string :=
  match j with
  | JNull => "null"
  | JBool b => if b then "true" else "false"
  | JNumber n => decimal_text n
  | JString s => s
  | JArray items =>
      join_with ","
        (map (fun x => match x with
                       | JNull => ""
                       | _ => js_to_string x
                       end) items)
  | JObject _ => "[object Object]"
  end.

Fixpoint strip_zeros (digits : list ascii) : list ascii :=
  match digits with
  | [] => []
  | c :: rest =>
      match strip_zeros rest with
      | [] => if Ascii.eqb c "0"%char then [] else [c]
      | kept => c :: kept
      end
  end.

(** The text SQLite gives a real with an integral value: fifteen
    significant digits, a digit after the point at least, an exponent
    from [1.0e+15] on. *)
Definition real_text (n : Z) : string :=
  let a := Z.abs n in
  let sign := if n <? 0 then "-" else "" in
  if a <? 10 ^ 15 then concat_all [sign; decimal_text a; ".0"]
  else
    let k := Z.of_nat (String.length (decimal_text a)) in
    let rounded := (a + 5 * 10 ^ (k - 16)) / 10 ^ (k - 15) in
    let '(m, e) := if rounded =? 10 ^ 15 then (10 ^ 14, k) else (rounded, k - 1) in
    match list_ascii_of_string (decimal_text m) with
    | [] => ""
    | first :: rest =>
        concat_all
          [sign; String first "."; 
           match strip_zeros rest with
           | [] => "0"
           | kept => string_of_list_ascii kept
           end;
           "e+"; decimal_text e]
    end.

Definition sqlite_integer (j : json) : option Z :=
  match j with
  | JNull => None
  | JBool b => Some (if b then 1 else 0)
  | JNumber n => Some n
  | JString s => numeric_integer s
  | JArray _ | JObject _ => numeric_integer (js_to_string j)
  end.

Definition sqlite_text (j : json) : option string :=
  match j with
  | JNull => None
  | JBool b => Some (if b then "1" else "0")
  | JNumber n =>
      Some (if (- 2 ^ 31 <=? n) && (n <? 2 ^ 31) then decimal_text n else real_text n)
  | JString s => Some s
  | JArray _ | JObject _ => Some (js_to_string j)
  end.

(** The server as run in the examples. *)
Definition run (faults : list bool) (req : request) (d : db) : served :=
  serve sqlite_integer sqlite_text faults req d.

(** ** The winner screen of the client *)

Module WinnerScreen.

(** A cat as the context provider holds it; a count that is missing or
    null is [None]. *)
Record cat : Type := mkCat {
  id : Z;
  image_url : string;
  upvotes : option Z;
  downvotes : option Z
}.

(** [n || 0] on a count. *)
Definition or_zero (n : option Z) : Z :=
  match n with
  | Some k => k
  | None => 0
  end.

(** [(cat.upvotes || 0) - (cat.downvotes || 0)] *)
Definition catScore (c : cat) : Z := or_zero (upvotes c) - or_zero (downvotes c).

(** [(max?.upvotes || 0) - (max?.downvotes || 0)] *)
Definition maxScore (max : option cat) : Z :=
  or_zero (match max with Some m => upvotes m | None => None end)
  - or_zero (match max with Some m => downvotes m | None => None end).

Definition pick (max : option cat) (c : cat) : option cat :=
  if maxScore max <? catScore c then Some c else max.

(** [cats.reduce((max, cat) => ..., null)] *)
Definition winner (cats : list cat) : option cat := fold_left pick cats None.

Definition winnerScore (w : option cat) : Z :=
  match w with
  | Some c => catScore c
  | None => 0
  end.

Inductive view : Type :=
| Spinner
| WinnerCard (image : string) (score up down : Z)
| NoWinner.

Definition render (cats : list cat) (loading : bool) : view :=
  let w := winner cats in
  let s := winnerScore w in
  if loading then Spinner
  else match w with
       | Some c => WinnerCard (image_url c) s (or_zero (upvotes c))
                              (or_zero (downvotes c))
       | None => NoWinner
       end.

End WinnerScreen.

(** * The client: Sentry hooks, the API helper, the context provider

    [frontend/App.js], [frontend/src/services/api.js],
    [frontend/src/services/auth.js] and the provider of
    [frontend/src/context/CatsContext.js].  What the code sends to Sentry
    is kept as a list of events, without the attribute objects; the
    logger calls of the provider carry nothing back and are left out,
    apart from the reads in their arguments that can throw.  A request is
    answered by a transport that the model takes as given. *)

Module Client.

(** ** [beforeSendLog] of [Sentry.init] *)




Section BeforeSendLog.
(** ToNumber of a string, an array or an object; [None] is NaN. *)
Variable to_number : json -> option Z.



End BeforeSendLog.

(** ** Sentry as the client uses it *)

Record sentry_user : Type := mkUser {
  user_id : jsval;
  user_email : string;
  user_name : string
}.

Inductive sentry_event : Type :=
| Logged (level message : string)
| Breadcrumb (category message level : string)
| Captured (message : string) (errorType : option string)
| UserSet (user : option sentry_user).

(** [s.split('@')[0]] *)
Fixpoint before_at (s : string) : string :=
  match s with
  | EmptyString => EmptyString
  | String c rest =>
      if Ascii.eqb c "@"%char then EmptyString else String c (before_at rest)
  end.

(** [setCurrentUser] and [clearCurrentUser] of [api.js] *)
Definition setCurrentUser (userId : jsval) (userEmail : string) : sentry_event :=
  UserSet (Some (mkUser userId userEmail (before_at userEmail))).

Definition clearCurrentUser : sentry_event := UserSet None.

(** [hay.includes(needle)] *)
Fixpoint str_includes (needle hay : string) : bool :=
  String.prefix needle hay
  || match hay with
     | EmptyString => false
     | String _ rest => str_includes needle rest
     end.

(** ** [makeRequest] *)

(** What [response.json()] gives: the value, or a rejection. *)
Inductive body_result : Type :=
| Parsed (data : json)
| Unparsable (message : string).

(** What [fetch] gives: a rejection, or a response read through [ok],
    [status] and [json()]; [text()] feeds a log attribute only. *)
Inductive fetch_result : Type :=
| Rejected (message : string)
| Responded (ok : bool) (status : Z) (body : body_result).

Inductive outcome (A : Type) : Type :=
| Returned (a : A)
| Threw (message : string).

Arguments Returned {A} a.
Arguments Threw {A} message.

Definition template (parts : list string) : string := concat_all parts.

Definition makeRequest (method endpoint : string) (r : fetch_result)
  : outcome json * list sentry_event :=
  let started :=
    [Logged "debug" "API request initiated";
     Breadcrumb "api-request" (template [method; " "; endpoint]) "debug"] in
  let attempt :=
    match r with
    | Rejected m => (Threw m, started)
    | Responded ok status body =>
        if negb ok then
          let message := template ["API Error: "; decimal_text status] in
          (Threw message,
           started ++
           [Logged "error" "API request failed";
            Breadcrumb "api-error"
              (template [method; " "; endpoint; " failed with status ";
                         decimal_text status]) "error";
            Captured message None])
        else
          match body with
          | Unparsable m => (Threw m, started)
          | Parsed data =>
              (Returned data,
               started ++
               [Logged "trace" "API request completed successfully";
                Breadcrumb "api-request"
                  (template [method; " "; endpoint; " succeeded"]) "debug"])
          end
    end in
  match attempt with
  | (Threw m, events) =>
      if negb (str_includes "API Error" m) then
        (Threw m,
         events ++ [Logged "error" "Network error during API request";
                    Captured m (Some "network_error")])
      else (Threw m, events)
  | done => done
  end.

(** ** The context provider and the auth helpers *)

Record call : Type := mkCall {
  call_method : string;
  call_url : string;
  call_body : option json
}.

(** [useState] of [CatsProvider]. *)
Record ui : Type := mkUi {
  ui_cats : json;
  ui_winner : json;
  ui_loading : bool;
  ui_error : option string
}.

Definition initial_ui : ui := mkUi (JArray []) JNull false None.

(** [data.length === 0]; [None] when reading [length] throws. *)
Definition length_is_zero (data : json) : option bool :=
  match data with
  | JNull => None
  | JArray items => Some (match items with [] => true | _ => false end)
  | JString s => Some (String.eqb s "")
  | JObject fields =>
      Some (match assoc "length" fields with
            | Some (JNumber 0) => true
            | _ => false
            end)
  | _ => Some false
  end.

Definition external_url : string :=
  "https://api.thecatapi.com/v1/images/search?limit=10".

Section Provider.
(** The network and what lies behind it. *)
Variable world : Type.
Variable fetch : world -> call -> world * fetch_result.
(** [API_URL] *)
Variable api_url : string.
(** The message of the TypeError raised by reading a property of null. *)
Variable null_message : string.

Record env : Type := mkEnv {
  env_world : world;
  env_ui : ui;
  env_events : list sentry_event;
  env_calls : list call
}.

(** An async function: it changes the environment and returns or
    throws. *)
Definition io (A : Type) : Type := env -> env * outcome A.

Definition ret {A : Type} (a : A) : io A := fun e => (e, Returned a).

Definition throw {A : Type} (message : string) : io A :=
  fun e => (e, Threw message).

Definition bind {A B : Type} (m : io A) (k : A -> io B) : io B :=
  fun e =>
    match m e with
    | (e', Returned a) => k a e'
    | (e', Threw message) => (e', Threw message)
    end.

Definition try_catch {A : Type} (m : io A) (handler : string -> io A) : io A :=
  fun e =>
    match m e with
    | (e', Threw message) => handler message e'
    | done => done
    end.

Definition finally {A : Type} (m : io A) (cleanup : io unit) : io A :=
  fun e =>
    match m e with
    | (e', r) =>
        match cleanup e' with
        | (e'', Returned _) => (e'', r)
        | (e'', Threw message) => (e'', Threw message)
        end
    end.

Local Notation "x <- m ;; k" := (bind m (fun x => k))
  (at level 61, m at next level, right associativity).
Local Notation "m ;;; k" := (bind m (fun _ => k))
  (at level 61, right associativity).

Definition emit (events : list sentry_event) : io unit :=
  fun e => (mkEnv (env_world e) (env_ui e) (env_events e ++ events) (env_calls e),
            Returned tt).

Definition send_request (c : call) : io fetch_result :=
  fun e =>
    let (w, r) := fetch (env_world e) c in
    (mkEnv w (env_ui e) (env_events e) (env_calls e ++ [c]), Returned r).

Definition set_ui (f : ui -> ui) : io unit :=
  fun e => (mkEnv (env_world e) (f (env_ui e)) (env_events e) (env_calls e),
            Returned tt).

Definition setCats (v : json) : io unit :=
  set_ui (fun u => mkUi v (ui_winner u) (ui_loading u) (ui_error u)).

Definition setWinner (v : json) : io unit :=
  set_ui (fun u => mkUi (ui_cats u) v (ui_loading u) (ui_error u)).

Definition setLoading (b : bool) : io unit :=
  set_ui (fun u => mkUi (ui_cats u) (ui_winner u) b (ui_error u)).

Definition setError (m : option string) : io unit :=
  set_ui (fun u => mkUi (ui_cats u) (ui_winner u) (ui_loading u) m).

(** The call that [makeRequest] hands to [fetch]. *)
Definition api_call (method endpoint : string) (body : option json) : call :=
  mkCall method (String.append api_url endpoint) body.

(** [makeRequest] on the network. *)
Definition request (method endpoint : string) (body : option json) : io json :=
  r <- send_request (mkCall method (String.append api_url endpoint) body) ;;
  emit (snd (makeRequest method endpoint r)) ;;;
  match fst (makeRequest method endpoint r) with
  | Returned data => ret data
  | Threw message => throw message
  end.

(** [api.get] and [api.post] *)
Definition api_get (endpoint : string) : io json := request "GET" endpoint None.

Definition api_post (endpoint : string) (data : json) : io json :=
  request "POST" endpoint (Some data).

(** [v.length], read for a logger call: reading a property of null
    throws. *)
Definition read_length (v : json) : io unit :=
  match v with
  | JNull => throw null_message
  | _ => ret tt
  end.

(** [fetchCats] of the provider.  In the branch of a list that is not
    empty the length was read by the test before, so the read for the
    logger call cannot throw. *)
Definition fetchCats : io unit :=
  setLoading true ;;;
  setError None ;;;
  finally
    (try_catch
       (catsData <- api_get "/api/cats" ;;
        match length_is_zero catsData with
        | None => throw null_message
        | Some true =>
            response <- send_request (mkCall "GET" external_url None) ;;
            match response with
            | Rejected message => throw message
            | Responded _ _ (Unparsable message) => throw message
            | Responded _ _ (Parsed newCats) =>
                api_post "/api/cats" (JObject [("cats", newCats)]) ;;;
                updatedCats <- api_get "/api/cats" ;;
                setCats updatedCats ;;;
                read_length updatedCats
            end
        | Some false => setCats catsData
        end)
       (fun message => setError (Some message)))
    (setLoading false).

(** [fetchWinner] of the provider. *)
Definition fetchWinner : io unit :=
  try_catch
    (winnerData <- api_get "/api/winner" ;; setWinner winnerData)
    (fun _ => ret tt).

(** [submitVote] of the provider, for a numeric cat id. *)
Definition submitVote (catId : Z) (voteType : string) : io unit :=
  try_catch
    (api_post "/api/votes"
       (JObject [("cat_id", JNumber catId); ("vote_type", JString voteType)]) ;;;
     fetchCats ;;;
     fetchWinner)
    (fun message => setError (Some message)).

(** [const { k } = response] *)
Definition destructure (k : string) (response : json) : io jsval :=
  match response with
  | JNull => throw null_message
  | _ => ret (prop k response)
  end.

(** [loginUser] of [auth.js]. *)
Definition loginUser (email password : string) : io json :=
  emit [Logged "info" "User login attempt"] ;;;
  try_catch
    (emit [Breadcrumb "auth" (template ["Login attempt for user "; email]) "info"] ;;;
     response <- api_post "/api/auth/login"
                   (JObject [("email", JString email);
                             ("password", JString password)]) ;;
     userId <- destructure "userId" response ;;
     emit [setCurrentUser userId email;
           Logged "info" "User login successful";
           Breadcrumb "auth" (template ["Successfully logged in user "; email]) "info"] ;;;
     ret response)
    (fun message =>
       emit [Logged "error" "User login failed";
             Breadcrumb "auth" (template ["Login failed for user "; email]) "error";
             Captured message None] ;;;
       throw message).

(** [registerUser] of [auth.js]. *)
Definition registerUser (email password : string) : io json :=
  emit [Logged "info" "User registration attempt"] ;;;
  try_catch
    (emit [Breadcrumb "auth" (template ["Registration attempt for user "; email])
                      "info"] ;;;
     response <- api_post "/api/auth/register"
                   (JObject [("email", JString email);
                             ("password", JString password)]) ;;
     userId <- destructure "userId" response ;;
     emit [setCurrentUser userId email;
           Logged "info" "User registration successful";
           Breadcrumb "auth" (template ["Successfully registered user "; email])
                      "info"] ;;;
     ret response)
    (fun message =>
       emit [Logged "error" "User registration failed";
             Breadcrumb "auth" (template ["Registration failed for user "; email])
                        "error";
             Captured message None] ;;;
       throw message).

(** [logoutUser] of [auth.js]. *)
Definition logoutUser : io unit :=
  emit [Logged "info" "User logged out";
        Breadcrumb "auth" "User logged out" "info";
        UserSet None].

End Provider.

End Client.


(** * Client and server together

    The transport of the client when it talks to this server at the
    default [API_URL], with a working Store: [fetch] of one of the six
    routes runs the handler and its statements before the next call is
    made, any other path of the server is answered 404 by the framework,
    and the cat image source answers as given.  For a seeding that
    inserts this is one schedule among those the code allows, since its
    inserts may still be running when the next call is answered; what is
    proved through this transport involves no such seeding. *)

Record deployment : Type := mkDeployment {
  served_db : db;
  clock : date;
  cat_api : Client.fetch_result
}.

Definition backend_url : string := "http://localhost:3000".

(** [response.ok] *)
Definition http_ok (status : Z) : bool := (200 <=? status) && (status <=? 299).

Section Deployment.
(** The message of [response.json()] on a body that is not JSON. *)
Variable not_json : string.

(** A request that is never answered does not occur; it is read as a
    rejection. *)
Definition http_response (r : option response) : Client.fetch_result :=
  match r with
  | Some (Reply status body) =>
      Client.Responded (http_ok status) status (Client.Parsed body)
  | Some Uncaught => Client.Responded false 500 (Client.Unparsable not_json)
  | None => Client.Rejected not_json
  end.

(** [req.body] after [express.json()]. *)
Definition request_body (c : Client.call) : json :=
  match Client.call_body c with
  | Some j => j
  | None => JObject []
  end.

Definition at_route (method path : string) (c : Client.call) : bool :=
  String.eqb (Client.call_method c) method
  && String.eqb (Client.call_url c) (String.append backend_url path).

Definition dispatch (now : date) (c : Client.call) : option request :=
  if at_route "GET" "/api/cats" c then Some GET_cats
  else if at_route "GET" "/api/winner" c then Some (GET_winner now)
  else if at_route "POST" "/api/votes" c then Some (POST_votes (request_body c))
  else if at_route "POST" "/api/cats" c then Some (POST_cats (request_body c))
  else if at_route "POST" "/api/clear" c then Some POST_clear
  else if at_route "GET" "/api/health" c then Some GET_health
  else None.

Definition backend_fetch (w : deployment) (c : Client.call)
  : deployment * Client.fetch_result :=
  if String.eqb (Client.call_url c) Client.external_url then (w, cat_api w)
  else
    match dispatch (clock w) c with
    | Some req =>
        (mkDeployment (store (run [] req (served_db w))) (clock w) (cat_api w),
         http_response (response_sent (run [] req (served_db w))))
    | None => (w, Client.Responded false 404 (Client.Unparsable not_json))
    end.

End Deployment.

(** * What the properties are stated with *)

(** ** What the schema promises about a database *)

(** [id INTEGER PRIMARY KEY] *)
Definition unique_ids (d : db) : Prop := NoDup (ids (cats d)).

Definition external_ids (cs : list cat_row) : list string :=
  flat_map (fun c => match external_id c with Some e => [e] | None => [] end) cs.

(** [external_id TEXT UNIQUE]: NULLs apart, no two rows share one. *)
Definition unique_external_ids (d : db) : Prop := NoDup (external_ids (cats d)).

(** [FOREIGN KEY (cat_id) REFERENCES cats(id)] on votes. *)
Definition votes_reference_cats (d : db) : Prop :=
  Forall (fun v => In (vote_cat_id v) (ids (cats d))) (votes d).

(** [FOREIGN KEY (cat_id) REFERENCES cats(id)] on monthly_winners. *)
Definition winners_reference_cats (d : db) : Prop :=
  Forall (fun w => In (winner_cat_id w) (ids (cats d))) (monthly_winners d).

Definition schema_ok (d : db) : Prop :=
  unique_ids d /\ unique_external_ids d /\
  votes_reference_cats d /\ winners_reference_cats d.

(** ** Counting votes *)

(** The votes of a cat, counted one by one: what the query has to report. *)
Definition count_votes (kind : string) (k : Z) (vs : list vote_row) : Z :=
  Z.of_nat
    (List.length
       (filter (fun v => (vote_cat_id v =? k) && String.eqb (vote_type v) kind) vs)).

Definition expected_score (vs : list vote_row) (c : cat_row) : cat_score :=
  mkScore (cat_id c) (image_url c)
          (count_votes "upvote" (cat_id c) vs)
          (count_votes "downvote" (cat_id c) vs).

(** The vote side of the joined rows of one cat. *)
Definition joined (c : cat_row) (vs : list vote_row) : list (option vote_row) :=
  match filter (fun v => vote_cat_id v =? cat_id c) vs with
  | [] => [None]
  | ms => map Some ms
  end.

Definition no_group (k : Z) (gs : list (cat_row * list (option vote_row))) : Prop :=
  Forall (fun g => cat_id (fst g) <> k) gs.

(** ** Requests, responses and failures *)

Definition success_body (key : string) (v : json) : json :=
  JObject [("success", JBool true); (key, v)].


(** A callback that leaves a response alone once one was sent. *)
Definition keeps_sent (j : job) : Prop :=
  forall r h x, sent h = Some x -> sent (job_callback j r h) = Some x.

Definition insert_job (c : json) : job :=
  mkJob (InsertCatOrIgnore (prop "url" c) (prop "id" c)) count_insert.

(** ** Sample data *)

Definition cat_entry (id url : json) : json := JObject [("id", id); ("url", url)].

Definition cats_body (entries : list json) : json := JObject [("cats", JArray entries)].

Definition vote_body (cat_id : json) (vote_type : string) : json :=
  JObject [("cat_id", cat_id); ("vote_type", JString vote_type)].

Definition entries_one : list json :=
  [cat_entry (JString "c1") (JString "http://x/1.jpg");
   cat_entry (JString "c2") (JString "http://x/2.jpg")].

Definition entries_two : list json :=
  [cat_entry (JString "c2") (JString "http://x/2b.jpg");
   cat_entry (JString "c3") (JString "http://x/3.jpg")].

Definition sample_db : db :=
  mkDb [mkCat 1 "http://x/1.jpg" (Some "c1"); mkCat 2 "http://x/2.jpg" (Some "c2");
        mkCat 3 "http://x/3.jpg" None]
       [mkVote 1 2 "upvote"; mkVote 2 1 "downvote"; mkVote 3 2 "upvote";
        mkVote 4 2 "downvote"]
       [mkWinner 1 1 "2026-11" (Some 4); mkWinner 2 2 "2026-11" (Some 9);
        mkWinner 3 3 "2026-10" (Some 30)]
       3 4.


(** ** Votes, joins and batches *)

(** A row of the list of cats after one more vote of type [kind] for
    cat [k]. *)
Definition bump (kind : string) (k : Z) (r : cat_score) : cat_score :=
  if score_id r =? k
  then mkScore (score_id r) (score_image_url r)
               (upvotes r + (if String.eqb kind "upvote" then 1 else 0))
               (downvotes r + (if String.eqb kind "downvote" then 1 else 0))
  else r.

(** A winner row of month [m] together with the cat it points at. *)
Definition joins (d : db) (m : string) (w : winner_row) (c : cat_row) : Prop :=
  In w (monthly_winners d) /\ month_year w = m /\
  In c (cats d) /\ cat_id c = winner_cat_id w.

(** [d'] holds the rows of [d], in their order, and possibly more. *)
Definition extends {X : Type} (l l' : list X) : Prop := exists more, l' = l ++ more.

(** What a seeding may do to the database. *)
Definition seeding_frame (d d' : db) : Prop :=
  extends (cats d) (cats d') /\ votes d' = votes d /\
  monthly_winners d' = monthly_winners d /\ votes_seq d' = votes_seq d /\
  cats_seq d <= cats_seq d'.


(** What a seeding of [items] may leave of [d]: in [d'] every external
    id that an entry carries together with a url is on exactly one row,
    no external id is on two rows, and every row is a row of [d] or made
    from an entry.  [text] is the text a TEXT column keeps. *)
Definition seeded_once (text : jsval -> option string) (items : list json)
    (d d' : db) : Prop :=
  (forall c e,
     In c items -> text (prop "id" c) = Some e -> text (prop "url" c) <> None ->
     List.length
       (filter (fun row => match external_id row with
                           | Some e' => String.eqb e' e
                           | None => false
                           end) (cats d')) = 1%nat) /\
  unique_external_ids d' /\
  (forall row,
     In row (cats d') ->
     In row (cats d) \/
     exists c, In c items /\ external_id row = text (prop "id" c) /\
               text (prop "url" c) = Some (image_url row)).

(** ** Sentry events *)

Definition is_capture (e : Client.sentry_event) : bool :=
  match e with
  | Client.Captured _ _ => true
  | _ => false
  end.

(** How often [captureException] was called. *)
Definition captures (events : list Client.sentry_event) : nat :=
  List.length (filter is_capture events).

Definition is_user_set (e : Client.sentry_event) : bool :=
  match e with
  | Client.UserSet _ => true
  | _ => false
  end.

Definition has_at (s : string) : Prop := In "@"%char (list_ascii_of_string s).

(** ** Client and server together *)

(** The body of the answer to [GET /api/cats] and to [GET /api/winner]. *)
Definition list_json (d : db) : json := JArray (map score_json (select_cats d)).

Definition winner_json (d : db) (now : date) : json :=
  match select_winner (currentMonth now) d with
  | Some row => view_json row
  | None => JNull
  end.

(** The database with one more vote of type [kind] for cat [k]. *)
Definition after_vote (d : db) (k : Z) (kind : string) : db :=
  mkDb (cats d)
       (votes d ++ [mkVote (next_id (votes_seq d) (map vote_id (votes d))) k kind])
       (monthly_winners d) (cats_seq d)
       (next_id (votes_seq d) (map vote_id (votes d))).

Definition cats_call : Client.call :=
  Client.mkCall "GET" (String.append backend_url "/api/cats") None.

Definition winner_call : Client.call :=
  Client.mkCall "GET" (String.append backend_url "/api/winner") None.

Definition external_call : Client.call :=
  Client.mkCall "GET" Client.external_url None.

Definition seed_call (newCats : json) : Client.call :=
  Client.mkCall "POST" (String.append backend_url "/api/cats")
    (Some (JObject [("cats", newCats)])).

Definition vote_call (k : Z) (kind : string) : Client.call :=
  Client.mkCall "POST" (String.append backend_url "/api/votes")
    (Some (JObject [("cat_id", JNumber k); ("vote_type", JString kind)])).

Definition auth_call (path email password : string) : Client.call :=
  Client.mkCall "POST" (String.append backend_url path)
    (Some (JObject [("email", JString email); ("password", JString password)])).

(** A network that answers from a script, one answer per call. *)
Definition scripted (w : list Client.fetch_result) (c : Client.call)
  : list Client.fetch_result * Client.fetch_result :=
  match w with
  | [] => ([], Client.Rejected "Network request failed")
  | r :: rest => (rest, r)
  end.

(** Deployments to run the client against: an empty database with a cat
    image source that answers with two entries, and a stocked database
    with a source that cannot be reached. *)
Definition sample_deployment : deployment :=
  mkDeployment empty_db (mkDate 2026 11 3 9 30 0 0)
    (Client.Responded true 200 (Client.Parsed (JArray entries_one))).

Definition stocked_deployment : deployment :=
  mkDeployment sample_db (mkDate 2026 11 3 9 30 0 0) (Client.Rejected "offline").

(** * Properties *)

(** ** The winner screen *)

Module WinnerScreenFacts.
Import WinnerScreen.

Lemma maxScore_Some (c : cat) : maxScore (Some c) = catScore c.
Proof. reflexivity. Qed.

Lemma maxScore_None : maxScore None = 0.
Proof. reflexivity. Qed.

Lemma pick_grows (max : option cat) (c : cat) :
  maxScore max <= maxScore (pick max c) /\ catScore c <= maxScore (pick max c).
Proof.
  unfold pick. destruct (maxScore max <? catScore c) eqn:E.
  - apply Z.ltb_lt in E. rewrite maxScore_Some. lia.
  - apply Z.ltb_ge in E. lia.
Qed.

(** The fold never lowers the running score and ends above every cat it
    went through. *)
Lemma fold_pick_upper (l : list cat) :
  forall acc,
    maxScore acc <= maxScore (fold_left pick l acc) /\
    (forall c, In c l -> catScore c <= maxScore (fold_left pick l acc)).
Proof.
  induction l as [|x l IH]; intros acc; simpl.
  - split; [lia | tauto].
  - destruct (IH (pick acc x)) as [Hacc Hall].
    destruct (pick_grows acc x) as [H1 H2].
    split; [lia |].
    intros c [<- | Hc]; [lia | auto].
Qed.

(** The fold either keeps its accumulator or ends on a member of the
    list that beats it strictly. *)
Lemma fold_pick_origin (l : list cat) :
  forall acc,
    fold_left pick l acc = acc \/
    exists w, fold_left pick l acc = Some w /\ In w l /\ maxScore acc < catScore w.
Proof.
  induction l as [|x l IH]; intros acc; simpl.
  - now left.
  - destruct (IH (pick acc x)) as [Hkeep | (w & Hw & Hin & Hlt)].
    + rewrite Hkeep. unfold pick.
      destruct (maxScore acc <? catScore x) eqn:E.
      * right. exists x. apply Z.ltb_lt in E. auto.
      * now left.
    + right. exists w. destruct (pick_grows acc x) as [H1 _].
      repeat split; auto. lia.
Qed.

(** C10: the reduce of the winner screen yields a cat only when some cat
    has a strictly positive net score, and then a cat of the list whose
    net score is maximal; on an empty list, or when every net score is
    zero or negative, it yields null and the screen, once loaded, shows
    the no-winner state. *)
Theorem winner_is_positive_maximum (cats : list cat) :
  (winner cats = None <-> forall c, In c cats -> catScore c <= 0) /\
  (forall w, winner cats = Some w ->
     In w cats /\ 0 < catScore w /\ forall c, In c cats -> catScore c <= catScore w) /\
  ((exists c, In c cats /\ 0 < catScore c) <-> exists w, winner cats = Some w) /\
  (winner cats = None -> render cats false = NoWinner) /\
  winner [] = None.
Proof.
  unfold winner.
  destruct (fold_pick_upper cats None) as [_ Hup].
  destruct (fold_pick_origin cats None) as [Hnone | (w & Hw & Hin & Hpos)].
  - rewrite Hnone in *. rewrite maxScore_None in Hup.
    repeat split; auto; try discriminate.
    + intros (c & Hc & Hlt). specialize (Hup c Hc). lia.
    + intros (w & Hw). discriminate.
    + intros _. unfold render, winner. now rewrite Hnone.
  - rewrite Hw in *. rewrite maxScore_Some in Hup. rewrite maxScore_None in Hpos.
    repeat split; try discriminate.
    + intros Hall. specialize (Hall w Hin). lia.
    + injection H as <-. exact Hin.
    + injection H as <-. exact Hpos.
    + injection H as <-. exact Hup.
    + intros _. now exists w.
    + intros _. exists w. auto.
Qed.

Lemma winner_is_positive_maximum_witness :
  (In (mkCat 2 "b" (Some 5) (Some 1)) [mkCat 1 "a" (Some 3) None;
                                       mkCat 2 "b" (Some 5) (Some 1);
                                       mkCat 3 "c" (Some 4) None] /\
   0 < catScore (mkCat 2 "b" (Some 5) (Some 1)) /\
   forall c, In c [mkCat 1 "a" (Some 3) None; mkCat 2 "b" (Some 5) (Some 1);
                   mkCat 3 "c" (Some 4) None] ->
             catScore c <= catScore (mkCat 2 "b" (Some 5) (Some 1))) /\
  winner [mkCat 1 "a" (Some 2) (Some 2); mkCat 2 "b" None (Some 1)] = None.
Proof.
  split.
  - apply (winner_is_positive_maximum
             [mkCat 1 "a" (Some 3) None; mkCat 2 "b" (Some 5) (Some 1);
              mkCat 3 "c" (Some 4) None]).
    reflexivity.
  - apply (proj2 (proj1 (winner_is_positive_maximum
             [mkCat 1 "a" (Some 2) (Some 2); mkCat 2 "b" None (Some 1)]))).
    intros c [<-|[<-|[]]]; vm_compute; discriminate.
Defined.

End WinnerScreenFacts.

(** ** The backend *)

Section ServerFacts.
Variable integer_affinity : json -> option Z.
Variable text_affinity : json -> option string.

Local Abbreviation Serve := (serve integer_affinity text_affinity).
Local Abbreviation Loop := (run_jobs integer_affinity text_affinity).
Local Abbreviation Exec := (exec integer_affinity text_affinity).

Lemma includes_vote_types (v : jsval) :
  includes ["upvote"; "downvote"] v = true <->
  v = Some (JString "upvote") \/ v = Some (JString "downvote").
Proof.
  destruct v as [[| | |s| |]|]; simpl;
    try (split; [discriminate | intros [H|H]; discriminate]).
  rewrite !orb_true_iff, !String.eqb_eq. split.
  - intros [->|[->|H]]; [now left | now right | discriminate].
  - intros [H|H]; injection H as ->; auto.
Qed.

Lemma run_jobs_keeps_sent (js : list job) :
  Forall keeps_sent js ->
  forall faults d h x,
    sent h = Some x ->
    sent (snd (fst (Loop faults js d h))) = Some x.
Proof.
  induction 1 as [|j js Hj _ IH]; intros faults d h x Hx; simpl; auto.
  destruct (Exec (hd false faults) (job_stmt j) d) as [r d1].
  specialize (IH (tl faults) d1 (job_callback j r h) x (Hj r h x Hx)).
  destruct (Loop (tl faults) js d1 (job_callback j r h)) as [[d2 h2] tr].
  exact IH.
Qed.

Lemma insert_job_keeps_sent (c : json) : keeps_sent (insert_job c).
Proof. intros r h x Hx. destruct r; simpl; exact Hx. Qed.

Lemma log_only_keeps_sent (st : stmt) (msg : string) :
  keeps_sent (mkJob st (log_only msg)).
Proof. intros r h x Hx. destruct r; simpl; exact Hx. Qed.

Lemma forEach_insert_objects (items : list json) :
  ~ In JNull items -> forEach_insert items = (map insert_job items, false).
Proof.
  induction items as [|c rest IH]; intros Hnn; simpl; auto.
  rewrite IH by (intros H; apply Hnn; now right).
  destruct c; try reflexivity. exfalso. apply Hnn. now left.
Qed.

Lemma forEach_insert_keeps_sent (items : list json) :
  Forall keeps_sent (fst (forEach_insert items)).
Proof.
  induction items as [|c rest IH]; simpl; [constructor|].
  destruct (forEach_insert rest) as [js t].
  destruct c as [| b | n | s | l | fs]; simpl; [constructor | ..];
    (constructor; [| exact IH]);
    [ apply (insert_job_keeps_sent (JBool b))
    | apply (insert_job_keeps_sent (JNumber n))
    | apply (insert_job_keeps_sent (JString s))
    | apply (insert_job_keeps_sent (JArray l))
    | apply (insert_job_keeps_sent (JObject fs)) ].
Qed.

(** A response sent before the queue is run is the response of the
    request, whatever the statements do. *)
Lemma early_response (req : request) (x : response) :
  sent (if threw (route req) then send Uncaught (after (route req))
        else after (route req)) = Some x ->
  Forall keeps_sent (queued (route req)) ->
  forall faults d, response_sent (Serve faults req d) = Some x.
Proof.
  intros Hx Hk faults d. unfold serve.
  pose proof (run_jobs_keeps_sent _ Hk faults d _ x Hx) as K.
  destruct (Loop faults (queued (route req)) d _) as [[d' h'] tr].
  exact K.
Qed.

Lemma seedCats_answers_early (body : json) :
  exists x,
    sent (if threw (seedCats body) then send Uncaught (after (seedCats body))
          else after (seedCats body)) = Some x /\
    Forall keeps_sent (queued (seedCats body)).
Proof.
  unfold seedCats.
  destruct (isArray (prop "cats" body)) as [[|c rest]|];
    try (eexists; split; [reflexivity | constructor]).
  pose proof (forEach_insert_keeps_sent (c :: rest)) as K.
  destruct (forEach_insert (c :: rest)) as [js [|]]; simpl in *;
    eexists; split; try reflexivity; exact K.
Qed.

(** Whatever the Store does, a non-empty batch of cat objects is
    answered with the counter as it stood when the loop ended. *)
Lemma seedCats_response (faults : list bool) (body : json) (items : list json) (d : db) :
  isArray (prop "cats" body) = Some items -> items <> [] -> ~ In JNull items ->
  response_sent (Serve faults (POST_cats body) d)
  = Some (Reply 200 (success_body "inserted" (JNumber 0))).
Proof.
  intros Harr Hne Hnn. apply early_response; simpl route; unfold seedCats;
    rewrite Harr; (destruct items as [|c rest]; [congruence|]);
    rewrite (forEach_insert_objects (c :: rest) Hnn); cbn [threw after queued].
  - reflexivity.
  - apply Forall_forall. intros j Hj. apply in_map_iff in Hj.
    destruct Hj as (c0 & <- & _). apply insert_job_keeps_sent.
Qed.

Lemma clearAll_response (faults : list bool) (d : db) :
  response_sent (Serve faults POST_clear d)
  = Some (Reply 200 (success_body "message" (JString "Database cleared"))).
Proof.
  apply early_response; [reflexivity|].
  repeat constructor; apply log_only_keeps_sent.
Qed.

Lemma loop_trace_length (js : list job) :
  forall faults d h, List.length (snd (Loop faults js d h)) = List.length js.
Proof.
  induction js as [|j js IH]; intros faults d h; simpl; [reflexivity|].
  destruct (Exec (hd false faults) (job_stmt j) d) as [r d1].
  specialize (IH (tl faults) d1 (job_callback j r h)).
  destruct (Loop (tl faults) js d1 (job_callback j r h)) as [[d2 h2] tr].
  simpl in *. now rewrite IH.
Qed.

Lemma seedCats_queued (body : json) (items : list json) :
  isArray (prop "cats" body) = Some items -> ~ In JNull items ->
  queued (seedCats body) = map insert_job items.
Proof.
  intros Harr Hnn. unfold seedCats. rewrite Harr.
  destruct items as [|c rest]; [reflexivity|].
  now rewrite (forEach_insert_objects (c :: rest) Hnn).
Qed.

(** C3: a vote whose [vote_type] is not exactly 'upvote' or 'downvote', or
    whose [cat_id] is missing (or otherwise falsy), is answered 400; no
    statement is queued, so the Store is neither read nor written and the
    votes table is as before. *)
Theorem submitVote_rejects_invalid (faults : list bool) (body : json) (d : db) :
  (prop "vote_type" body <> Some (JString "upvote") /\
   prop "vote_type" body <> Some (JString "downvote"))
  \/ truthy (prop "cat_id" body) = false ->
  queued (submitVote body) = [] /\
  response_sent (Serve faults (POST_votes body) d)
    = Some (Reply 400 (error_body "Invalid cat_id or vote_type")) /\
  trace (Serve faults (POST_votes body) d) = [] /\
  store (Serve faults (POST_votes body) d) = d /\
  votes (store (Serve faults (POST_votes body) d)) = votes d.
Proof.
  intros Hbad.
  assert (Hguard : negb (truthy (prop "cat_id" body))
                   || negb (truthy (prop "vote_type" body))
                   || negb (includes ["upvote"; "downvote"] (prop "vote_type" body))
                   = true).
  { destruct Hbad as [[Hu Hd] | Hc].
    - destruct (includes ["upvote"; "downvote"] (prop "vote_type" body)) eqn:E.
      + apply includes_vote_types in E. tauto.
      + now rewrite orb_true_r.
    - now rewrite Hc. }
  unfold serve. simpl route. unfold submitVote. rewrite Hguard. simpl.
  repeat split.
Qed.

(** C9: the health check answers the constant [{status: "ok"}]; it queues
    no statement and leaves every table as it was. *)
Theorem health_is_constant (faults : list bool) (d : db) :
  queued health = [] /\
  response_sent (Serve faults GET_health d)
    = Some (Reply 200 (JObject [("status", JString "ok")])) /\
  trace (Serve faults GET_health d) = [] /\
  store (Serve faults GET_health d) = d.
Proof. repeat split. Qed.

(** C8: with a working Store, clearing runs DELETE on votes, then on
    monthly_winners, then on cats; all three tables end empty, the next
    list of cats is empty and the next winner is null. *)
Theorem clearAll_empties_store (d : db) (now : date) :
  trace (Serve [] POST_clear d)
    = [(DeleteVotes, RunOk); (DeleteWinners, RunOk); (DeleteCats, RunOk)] /\
  votes (store (Serve [] POST_clear d)) = [] /\
  monthly_winners (store (Serve [] POST_clear d)) = [] /\
  cats (store (Serve [] POST_clear d)) = [] /\
  response_sent (Serve [] GET_cats (store (Serve [] POST_clear d)))
    = Some (Reply 200 (JArray [])) /\
  response_sent (Serve [] (GET_winner now) (store (Serve [] POST_clear d)))
    = Some (Reply 200 JNull).
Proof. repeat split. Qed.


End ServerFacts.

(** ** ORDER BY *)

Section OrderByFacts.
Variable A : Type.
Variable before : A -> A -> bool.

Lemma insert_sorted_perm (x : A) (l : list A) :
  Permutation (insert_sorted before x l) (x :: l).
Proof.
  induction l as [|y rest IH]; simpl; auto.
  destruct (before x y); auto.
  rewrite IH. apply perm_swap.
Qed.

Lemma order_by_perm (l : list A) : Permutation (order_by before l) l.
Proof.
  induction l as [|x l IH]; simpl; auto.
  rewrite insert_sorted_perm. now constructor.
Qed.

Hypothesis before_total : forall x y, before x y = false -> before y x = true.
Hypothesis before_trans :
  forall x y z, before x y = true -> before y z = true -> before x z = true.

Lemma insert_sorted_sorted (x : A) (l : list A) :
  StronglySorted (fun a b => before a b = true) l ->
  StronglySorted (fun a b => before a b = true) (insert_sorted before x l).
Proof.
  induction 1 as [|y rest Hs IH Hall]; simpl.
  - repeat constructor.
  - destruct (before x y) eqn:E.
    + constructor; [now constructor|].
      constructor; auto.
      eapply Forall_impl; [|exact Hall]. intros z Hz. eauto.
    + constructor; auto.
      apply (Permutation_Forall (Permutation_sym (insert_sorted_perm x rest))).
      constructor; auto.
Qed.

Lemma order_by_sorted (l : list A) :
  StronglySorted (fun a b => before a b = true) (order_by before l).
Proof.
  induction l as [|x l IH]; simpl; [constructor|].
  now apply insert_sorted_sorted.
Qed.

End OrderByFacts.

(** ** The aggregation of [GET /api/cats] *)

Lemma left_join_rows (cs : list cat_row) (vs : list vote_row) :
  left_join cs vs = flat_map (fun c => map (pair c) (joined c vs)) cs.
Proof.
  unfold left_join. apply flat_map_ext. intros c. unfold joined.
  destruct (filter (fun v => vote_cat_id v =? cat_id c) vs); [reflexivity|].
  now rewrite map_map.
Qed.

Lemma joined_not_nil (c : cat_row) (vs : list vote_row) : joined c vs <> [].
Proof.
  unfold joined.
  destruct (filter (fun v => vote_cat_id v =? cat_id c) vs); discriminate.
Qed.

Lemma add_to_new_group c x gs :
  no_group (cat_id c) gs -> add_to_group (c, x) gs = gs ++ [(c, [x])].
Proof.
  induction 1 as [|[c' rows] gs Hne _ IH]; simpl; [reflexivity|].
  simpl in Hne. apply Z.eqb_neq in Hne. rewrite Hne. now rewrite IH.
Qed.

Lemma add_to_last_group c x rows gs :
  no_group (cat_id c) gs ->
  add_to_group (c, x) (gs ++ [(c, rows)]) = gs ++ [(c, rows ++ [x])].
Proof.
  induction 1 as [|[c' rows'] gs Hne _ IH]; simpl.
  - now rewrite Z.eqb_refl.
  - simpl in Hne. apply Z.eqb_neq in Hne. rewrite Hne. now rewrite IH.
Qed.

Lemma fold_last_group c xs :
  forall rows gs,
    no_group (cat_id c) gs ->
    fold_left (fun gs r => add_to_group r gs) (map (pair c) xs) (gs ++ [(c, rows)])
    = gs ++ [(c, rows ++ xs)].
Proof.
  induction xs as [|x xs IH]; intros rows gs Hgs; simpl.
  - now rewrite app_nil_r.
  - rewrite add_to_last_group by assumption.
    rewrite IH by assumption. now rewrite <- app_assoc.
Qed.

Lemma fold_one_cat c xs gs :
  xs <> [] -> no_group (cat_id c) gs ->
  fold_left (fun gs r => add_to_group r gs) (map (pair c) xs) gs = gs ++ [(c, xs)].
Proof.
  destruct xs as [|x xs]; [congruence|]. intros _ Hgs. simpl.
  rewrite add_to_new_group by assumption.
  now rewrite fold_last_group.
Qed.

(** Grouping the rows of a join by a key that is unique among the cats
    gives one group per cat, in the order of the cats. *)
Lemma fold_groups (f : cat_row -> list (option vote_row)) (cs : list cat_row) :
  (forall c, f c <> []) ->
  NoDup (ids cs) ->
  forall gs,
    (forall c, In c cs -> no_group (cat_id c) gs) ->
    fold_left (fun gs r => add_to_group r gs)
              (flat_map (fun c => map (pair c) (f c)) cs) gs
    = gs ++ map (fun c => (c, f c)) cs.
Proof.
  intros Hf. induction cs as [|c cs IH]; intros Hnd gs Hgs; simpl.
  - now rewrite app_nil_r.
  - inversion Hnd as [|k ks Hnotin Hnd']; subst.
    rewrite fold_left_app.
    rewrite fold_one_cat by (auto; apply Hgs; now left).
    rewrite IH; auto.
    + now rewrite <- app_assoc.
    + intros c' Hc'. apply Forall_app. split.
      * apply Hgs. now right.
      * constructor; [|constructor]. simpl. intros Heq.
        apply Hnotin. rewrite Heq. apply in_map. exact Hc'.
Qed.

Lemma group_by_left_join (cs : list cat_row) (vs : list vote_row) :
  NoDup (ids cs) ->
  group_by_cat_id (left_join cs vs) = map (fun c => (c, joined c vs)) cs.
Proof.
  intros Hnd. unfold group_by_cat_id. rewrite left_join_rows.
  rewrite (fold_groups (fun c => joined c vs)); auto.
  - intros c. apply joined_not_nil.
  - intros c _. constructor.
Qed.

Lemma sum_case_when (kind : string) (ms : list vote_row) :
  sum (map (case_when kind) (map Some ms))
  = Z.of_nat (List.length (filter (fun v => String.eqb (vote_type v) kind) ms)).
Proof.
  induction ms as [|v ms IH]; [reflexivity|].
  cbn [map sum fold_right case_when filter]. fold (sum (map (case_when kind) (map Some ms))).
  rewrite IH.
  destruct (String.eqb (vote_type v) kind); cbn [List.length]; lia.
Qed.

Lemma filter_both {X : Type} (p q : X -> bool) (l : list X) :
  filter (fun x => p x && q x) l = filter q (filter p l).
Proof.
  induction l as [|x l IH]; simpl; [reflexivity|].
  destruct (p x); simpl; [destruct (q x)|]; now rewrite IH.
Qed.

Lemma sum_joined (kind : string) (c : cat_row) (vs : list vote_row) :
  sum (map (case_when kind) (joined c vs)) = count_votes kind (cat_id c) vs.
Proof.
  unfold count_votes, joined. rewrite filter_both.
  destruct (filter (fun v => vote_cat_id v =? cat_id c) vs) as [|v ms] eqn:E.
  - reflexivity.
  - apply sum_case_when.
Qed.

(** The result set before ORDER BY: one row per cat with its two counts. *)
Lemma select_cats_rows (d : db) :
  NoDup (ids (cats d)) ->
  select_cats d
  = order_by (fun x y => upvotes y <=? upvotes x)
             (map (expected_score (votes d)) (cats d)).
Proof.
  intros Hnd. unfold select_cats. rewrite group_by_left_join by assumption.
  rewrite map_map. f_equal. apply map_ext. intros c.
  unfold aggregate, expected_score. simpl. now rewrite !sum_joined.
Qed.

Lemma count_votes_perm (kind : string) (k : Z) (vs vs' : list vote_row) :
  Permutation vs vs' -> count_votes kind k vs = count_votes kind k vs'.
Proof.
  intros Hp. unfold count_votes. f_equal. apply Permutation_length.
  induction Hp; simpl; auto.
  - destruct ((vote_cat_id x =? k) && String.eqb (vote_type x) kind); auto.
  - destruct ((vote_cat_id x =? k) && String.eqb (vote_type x) kind);
      destruct ((vote_cat_id y =? k) && String.eqb (vote_type y) kind);
      auto using perm_swap.
  - etransitivity; eauto.
Qed.

Lemma count_votes_none (kind : string) (k : Z) (vs : list vote_row) :
  (forall v, In v vs -> vote_cat_id v <> k) -> count_votes kind k vs = 0.
Proof.
  intros Hno. unfold count_votes.
  replace (filter _ vs) with (@nil vote_row); [reflexivity|].
  symmetry. induction vs as [|v vs IH]; simpl; [reflexivity|].
  assert (E : (vote_cat_id v =? k) = false)
    by (apply Z.eqb_neq, Hno; now left).
  rewrite E. simpl. apply IH. intros v' Hv'. apply Hno. now right.
Qed.

Section ListCats.
Variable integer_affinity : json -> option Z.
Variable text_affinity : json -> option string.

Local Abbreviation Serve := (serve integer_affinity text_affinity).

Lemma listCats_response (d : db) :
  response_sent (Serve [] GET_cats d)
  = Some (Reply 200 (JArray (map score_json (select_cats d)))) /\
  store (Serve [] GET_cats d) = d.
Proof. split; reflexivity. Qed.

(** C1: with the cats' ids unique (PRIMARY KEY), the answer is a JSON
    array with one object [{id, image_url, upvotes, downvotes}] per cat,
    carrying exactly the number of that cat's votes of type 'upvote' and
    of type 'downvote'; a cat without votes is listed with 0 and 0; the
    objects come by descending upvotes; and the answer is the same for
    any other order of the rows of the votes table. *)
Theorem listCats_counts (d : db) :
  NoDup (ids (cats d)) ->
  exists rows,
    response_sent (Serve [] GET_cats d)
      = Some (Reply 200
                (JArray (map (fun r => JObject [("id", JNumber (score_id r));
                                                ("image_url", JString (score_image_url r));
                                                ("upvotes", JNumber (upvotes r));
                                                ("downvotes", JNumber (downvotes r))])
                             rows))) /\
    store (Serve [] GET_cats d) = d /\
    Permutation rows (map (expected_score (votes d)) (cats d)) /\
    (forall c, In c (cats d) ->
       In (mkScore (cat_id c) (image_url c)
                   (count_votes "upvote" (cat_id c) (votes d))
                   (count_votes "downvote" (cat_id c) (votes d))) rows) /\
    (forall c, In c (cats d) ->
       (forall v, In v (votes d) -> vote_cat_id v <> cat_id c) ->
       In (mkScore (cat_id c) (image_url c) 0 0) rows) /\
    StronglySorted (fun x y => (upvotes y <=? upvotes x) = true) rows /\
    (forall d', cats d' = cats d -> Permutation (votes d') (votes d) ->
       response_sent (Serve [] GET_cats d') = response_sent (Serve [] GET_cats d)).
Proof.
  intros Hnd. exists (select_cats d).
  destruct (listCats_response d) as [Hresp Hstore].
  assert (Hperm : Permutation (select_cats d)
                    (map (expected_score (votes d)) (cats d))).
  { rewrite select_cats_rows by assumption. apply order_by_perm. }
  assert (Hin : forall c, In c (cats d) ->
                  In (expected_score (votes d) c) (select_cats d)).
  { intros c Hc. apply (Permutation_in _ (Permutation_sym Hperm)).
    now apply in_map. }
  repeat split; auto.
  - intros c Hc Hno. specialize (Hin c Hc). unfold expected_score in Hin.
    now rewrite !count_votes_none in Hin by assumption.
  - rewrite select_cats_rows by assumption. apply order_by_sorted.
    + intros x y H. apply Z.leb_gt in H. apply Z.leb_le. lia.
    + intros x y z H1 H2. apply Z.leb_le in H1, H2. apply Z.leb_le. lia.
  - intros d' Hcats Hvotes.
    destruct (listCats_response d') as [Hresp' _]. rewrite Hresp', Hresp.
    rewrite !select_cats_rows by (try rewrite Hcats; assumption).
    rewrite Hcats.
    assert (E : map (expected_score (votes d')) (cats d)
                = map (expected_score (votes d)) (cats d)).
    { apply map_ext. intros c. unfold expected_score.
      now rewrite !(count_votes_perm _ _ _ _ Hvotes). }
    now rewrite E.
Qed.

End ListCats.

Lemma sample_db_ids_unique : NoDup (ids (cats sample_db)).
Proof.
  simpl. repeat constructor; simpl; intuition discriminate.
Qed.

Lemma listCats_counts_witness :
  exists rows,
    response_sent (run [] GET_cats sample_db)
      = Some (Reply 200
                (JArray (map (fun r => JObject [("id", JNumber (score_id r));
                                                ("image_url", JString (score_image_url r));
                                                ("upvotes", JNumber (upvotes r));
                                                ("downvotes", JNumber (downvotes r))])
                             rows))) /\
    store (run [] GET_cats sample_db) = sample_db /\
    Permutation rows (map (expected_score (votes sample_db)) (cats sample_db)) /\
    (forall c, In c (cats sample_db) ->
       In (mkScore (cat_id c) (image_url c)
                   (count_votes "upvote" (cat_id c) (votes sample_db))
                   (count_votes "downvote" (cat_id c) (votes sample_db))) rows) /\
    (forall c, In c (cats sample_db) ->
       (forall v, In v (votes sample_db) -> vote_cat_id v <> cat_id c) ->
       In (mkScore (cat_id c) (image_url c) 0 0) rows) /\
    StronglySorted (fun x y => (upvotes y <=? upvotes x) = true) rows /\
    (forall d', cats d' = cats sample_db ->
       Permutation (votes d') (votes sample_db) ->
       response_sent (run [] GET_cats d') = response_sent (run [] GET_cats sample_db)).
Proof.
  exact (listCats_counts sqlite_integer sqlite_text sample_db sample_db_ids_unique).
Defined.

(** ** The winner of the month *)

Lemma sql_leb_refl (a : option Z) : sql_leb a a = true.
Proof. destruct a; simpl; [apply Z.leb_refl | reflexivity]. Qed.

Lemma sql_leb_total (a b : option Z) : sql_leb a b = false -> sql_leb b a = true.
Proof.
  destruct a, b; simpl; try congruence.
  intros H. apply Z.leb_gt in H. apply Z.leb_le. lia.
Qed.

Lemma sql_leb_trans (a b c : option Z) :
  sql_leb a b = true -> sql_leb b c = true -> sql_leb a c = true.
Proof.
  destruct a, b, c; simpl; try congruence.
  intros H1 H2. apply Z.leb_le in H1, H2. apply Z.leb_le. lia.
Qed.

(** The order of ORDER BY on a nullable INTEGER column, in the order of
    the integers. *)
Lemma sql_leb_le (a b : option Z) :
  sql_leb a b = true <->
  forall x, a = Some x -> exists y, b = Some y /\ x <= y.
Proof.
  destruct a as [x|], b as [y|]; simpl.
  - rewrite Z.leb_le. split.
    + intros H x' E. injection E as <-. eauto.
    + intros H. destruct (H x eq_refl) as (y' & E & Hle). injection E as <-. exact Hle.
  - split; [discriminate|].
    intros H. destruct (H x eq_refl) as (y & E & _). discriminate.
  - split; [intros _ x E; discriminate | reflexivity].
  - split; [intros _ x E; discriminate | reflexivity].
Qed.

Lemma filter_none {X : Type} (p : X -> bool) (l : list X) :
  (forall x, In x l -> p x = false) -> filter p l = [].
Proof.
  induction l as [|x l IH]; intros H; simpl; [reflexivity|].
  rewrite (H x) by now left. apply IH. intros y Hy. apply H. now right.
Qed.

(** The joined rows of the month: each pairs a winner row of that month
    with the cat it points at. *)
Lemma in_month_join (d : db) (m : string) (v : winner_view) :
  In v (flat_map (join_winner (cats d))
          (filter (fun w => String.eqb (month_year w) m) (monthly_winners d)))
  <-> exists w c,
        In w (monthly_winners d) /\ month_year w = m /\
        In c (cats d) /\ cat_id c = winner_cat_id w /\
        v = mkView (cat_id c) (image_url c) (upvote_count w).
Proof.
  rewrite in_flat_map. split.
  - intros (w & Hw & Hv). apply filter_In in Hw. destruct Hw as [Hw Hm].
    apply String.eqb_eq in Hm. unfold join_winner in Hv.
    apply in_map_iff in Hv. destruct Hv as (c & <- & Hc).
    apply filter_In in Hc. destruct Hc as [Hc Hid]. apply Z.eqb_eq in Hid.
    exists w, c. auto.
  - intros (w & c & Hw & Hm & Hc & Hid & ->). exists w. split.
    + apply filter_In. split; [assumption|]. now apply String.eqb_eq.
    + unfold join_winner. apply in_map_iff. exists c. split; [reflexivity|].
      apply filter_In. split; [assumption|]. apply Z.eqb_eq. now symmetry.
Qed.

Lemma currentMonth_format (now : date) :
  Z.of_nat (year now) <= 9999 ->
  currentMonth now
  = String.append (pad 4 (year now)) (String.append "-" (pad 2 (month now))).
Proof.
  intros Hy. apply Z.leb_le in Hy.
  unfold currentMonth, slice, toISOString. rewrite Hy. reflexivity.
Qed.

Section Winner.
Variable integer_affinity : json -> option Z.
Variable text_affinity : json -> option string.

Local Abbreviation Serve := (serve integer_affinity text_affinity).

Lemma getCurrentWinner_response (d : db) (now : date) :
  response_sent (Serve [] (GET_winner now) d)
  = Some (Reply 200 (match select_winner (currentMonth now) d with
                     | Some row => view_json row
                     | None => JNull
                     end)) /\
  store (Serve [] (GET_winner now) d) = d.
Proof.
  unfold serve. simpl.
  destruct (select_winner (currentMonth now) d); split; reflexivity.
Qed.

(** The result set of the query: empty when no winner row of the month
    joins a cat, and otherwise headed by the view of a joining row whose
    count no joining row exceeds. *)
Lemma select_winner_cases (d : db) (m : string) :
  (select_winner m d = None /\ forall w c, ~ joins d m w c) \/
  (exists w c,
     select_winner m d = Some (mkView (cat_id c) (image_url c) (upvote_count w)) /\
     joins d m w c /\
     forall w' c', joins d m w' c' ->
                   sql_leb (upvote_count w') (upvote_count w) = true).
Proof.
  set (before := fun x y : winner_view =>
                   sql_leb (view_upvote_count y) (view_upvote_count x)).
  set (L := flat_map (join_winner (cats d))
              (filter (fun w => String.eqb (month_year w) m) (monthly_winners d))).
  assert (Hsel : select_winner m d = hd_error (order_by before L)) by reflexivity.
  pose proof (order_by_perm _ before L) as Hperm.
  assert (Hsorted : StronglySorted (fun a b => before a b = true) (order_by before L)).
  { apply order_by_sorted; unfold before.
    - intros x y. apply sql_leb_total.
    - intros x y z H1 H2. eapply sql_leb_trans; eauto. }
  assert (HinL : forall v, In v L <->
            exists w c, joins d m w c /\
                        v = mkView (cat_id c) (image_url c) (upvote_count w)).
  { intros v. unfold L. rewrite in_month_join. unfold joins.
    split; intros (w & c & H); exists w, c; tauto. }
  rewrite Hsel.
  destruct (order_by before L) as [|v rest] eqn:E.
  - left. split; [reflexivity|]. intros w c Hj.
    apply Permutation_nil in Hperm.
    assert (In (mkView (cat_id c) (image_url c) (upvote_count w)) L)
      by (apply HinL; eauto).
    rewrite Hperm in H. destruct H.
  - right.
    assert (Hv : In v L) by (apply (Permutation_in _ Hperm); now left).
    apply HinL in Hv. destruct Hv as (w & c & Hj & ->).
    exists w, c. split; [reflexivity|]. split; [exact Hj|].
    intros w' c' Hj'.
    assert (Hy : In (mkView (cat_id c') (image_url c') (upvote_count w'))
                    (mkView (cat_id c) (image_url c) (upvote_count w) :: rest)).
    { apply (Permutation_in _ (Permutation_sym Hperm)). apply HinL. eauto. }
    destruct Hy as [Hy | Hy].
    + injection Hy as _ _ <-. apply sql_leb_refl.
    + apply StronglySorted_inv in Hsorted. destruct Hsorted as [_ Hall].
      exact (proj1 (Forall_forall _ _) Hall _ Hy).
Qed.

(** C4, as the code has it: the month looked up is the first seven
    characters of the ISO date, YYYY-MM for years up to 9999.  The
    answer is null exactly when no row of monthly_winners of that month
    points at a cat, in particular when the table has no row of that
    month.  Otherwise it is exactly one object: the id and image_url of
    the cat of one such row, with that row's upvote_count, which is the
    largest among the rows of the month that point at a cat (a NULL count
    is below every number).  Rows of the month whose cat does not exist
    are left out by the JOIN; when every winner row points at a cat
    (FOREIGN KEY), the count is the largest among all rows of the
    month. *)
Theorem getCurrentWinner_maximum (d : db) (now : date) :
  (Z.of_nat (year now) <= 9999 ->
   currentMonth now
   = String.append (pad 4 (year now)) (String.append "-" (pad 2 (month now)))) /\
  store (Serve [] (GET_winner now) d) = d /\
  ((forall w, In w (monthly_winners d) -> month_year w <> currentMonth now) ->
   response_sent (Serve [] (GET_winner now) d) = Some (Reply 200 JNull)) /\
  ((forall w c, ~ joins d (currentMonth now) w c) <->
   response_sent (Serve [] (GET_winner now) d) = Some (Reply 200 JNull)) /\
  ((exists w c, joins d (currentMonth now) w c) ->
   exists w c,
     joins d (currentMonth now) w c /\
     (forall w' c' n',
        joins d (currentMonth now) w' c' -> upvote_count w' = Some n' ->
        exists n, upvote_count w = Some n /\ n' <= n) /\
     response_sent (Serve [] (GET_winner now) d)
     = Some (Reply 200 (JObject [("id", JNumber (cat_id c));
                                 ("image_url", JString (image_url c));
                                 ("upvote_count",
                                  match upvote_count w with
                                  | Some n => JNumber n
                                  | None => JNull
                                  end)]))) /\
  (winners_reference_cats d ->
   (exists w, In w (monthly_winners d) /\ month_year w = currentMonth now) ->
   exists w c,
     In w (monthly_winners d) /\ month_year w = currentMonth now /\
     In c (cats d) /\ cat_id c = winner_cat_id w /\
     (forall w' n',
        In w' (monthly_winners d) -> month_year w' = currentMonth now ->
        upvote_count w' = Some n' ->
        exists n, upvote_count w = Some n /\ n' <= n) /\
     response_sent (Serve [] (GET_winner now) d)
     = Some (Reply 200 (JObject [("id", JNumber (cat_id c));
                                 ("image_url", JString (image_url c));
                                 ("upvote_count",
                                  match upvote_count w with
                                  | Some n => JNumber n
                                  | None => JNull
                                  end)]))).
Proof.
  destruct (getCurrentWinner_response d now) as [Hresp Hstore].
  split; [apply currentMonth_format|]. split; [exact Hstore|].
  rewrite Hresp.
  destruct (select_winner_cases d (currentMonth now))
    as [[-> Hnone] | (w & c & -> & Hj & Hmax)].
  - split; [reflexivity|]. split; [split; auto|]. split.
    + intros (w & c & Hj). destruct (Hnone w c Hj).
    + intros Hfk (w & Hw & Hm). exfalso.
      pose proof (proj1 (Forall_forall _ _) Hfk w Hw) as Hc.
      apply in_map_iff in Hc. destruct Hc as (c & Hid & Hc).
      apply (Hnone w c). unfold joins. auto.
  - assert (Hle : forall w' c' n',
              joins d (currentMonth now) w' c' -> upvote_count w' = Some n' ->
              exists n, upvote_count w = Some n /\ n' <= n).
    { intros w' c' n' Hj' Hn'.
      exact (proj1 (sql_leb_le _ _) (Hmax w' c' Hj') n' Hn'). }
    split; [|split; [|split]].
    + intros Hno. destruct Hj as (Hw & Hm & _). destruct (Hno w Hw Hm).
    + split.
      * intros Hnone. destruct (Hnone w c Hj).
      * intros H. injection H as H. discriminate.
    + intros _. exists w, c. split; [exact Hj|]. split; [exact Hle|].
      cbn. destruct (upvote_count w); reflexivity.
    + intros Hfk _. exists w, c.
      destruct Hj as (Hw & Hm & Hc & Hid).
      split; [exact Hw|]. split; [exact Hm|]. split; [exact Hc|]. split; [exact Hid|].
      split.
      * intros w' n' Hw' Hm' Hn'.
        pose proof (proj1 (Forall_forall _ _) Hfk w' Hw') as Hc'.
        apply in_map_iff in Hc'. destruct Hc' as (c' & Hid' & Hc').
        apply (Hle w' c' n'); [|exact Hn']. unfold joins. auto.
      * cbn. destruct (upvote_count w); reflexivity.
Qed.

End Winner.

Lemma getCurrentWinner_maximum_witness :
  winners_reference_cats sample_db /\
  response_sent (run [] (GET_winner (mkDate 2026 12 1 0 0 0 0)) sample_db)
  = Some (Reply 200 JNull) /\
  exists w c,
    In w (monthly_winners sample_db) /\ month_year w = "2026-11" /\
    In c (cats sample_db) /\ cat_id c = winner_cat_id w /\
    (forall w' n',
       In w' (monthly_winners sample_db) -> month_year w' = "2026-11" ->
       upvote_count w' = Some n' ->
       exists n, upvote_count w = Some n /\ n' <= n) /\
    response_sent (run [] (GET_winner (mkDate 2026 11 3 9 30 0 0)) sample_db)
    = Some (Reply 200 (JObject [("id", JNumber (cat_id c));
                                ("image_url", JString (image_url c));
                                ("upvote_count",
                                 match upvote_count w with
                                 | Some n => JNumber n
                                 | None => JNull
                                 end)])).
Proof.
  assert (Hfk : winners_reference_cats sample_db).
  { apply Forall_forall. intros w Hw. simpl in Hw.
    destruct Hw as [<-|[<-|[<-|[]]]]; simpl; auto. }
  split; [exact Hfk|]. split.
  - apply (proj1 (proj2 (proj2
             (getCurrentWinner_maximum sqlite_integer sqlite_text sample_db
                (mkDate 2026 12 1 0 0 0 0))))).
    intros w Hw. simpl in Hw.
    destruct Hw as [<-|[<-|[<-|[]]]]; vm_compute; discriminate.
  - apply (proj2 (proj2 (proj2 (proj2 (proj2
             (getCurrentWinner_maximum sqlite_integer sqlite_text sample_db
                (mkDate 2026 11 3 9 30 0 0))))))); [exact Hfk|].
    exists (mkWinner 1 1 "2026-11" (Some 4)). split; [now left | reflexivity].
Defined.

(** C4, as stated, against the code: a row of the month whose cat does
    not exist is not served, even with the largest count of the month;
    and a month whose only row points at no cat is answered null. *)
Lemma getCurrentWinner_counterexample :
  let now := mkDate 2026 11 3 9 30 0 0 in
  let d := mkDb [mkCat 1 "http://x/1.jpg" (Some "c1")] []
                [mkWinner 1 1 "2026-11" (Some 4); mkWinner 2 99 "2026-11" (Some 99)]
                1 0 in
  let lone := mkDb [] [] [mkWinner 2 99 "2026-11" (Some 99)] 0 0 in
  currentMonth now = "2026-11" /\
  response_sent (run [] (GET_winner now) d)
  = Some (Reply 200 (JObject [("id", JNumber 1);
                              ("image_url", JString "http://x/1.jpg");
                              ("upvote_count", JNumber 4)])) /\
  response_sent (run [] (GET_winner now) lone) = Some (Reply 200 JNull).
Proof. repeat split. Qed.

(** ** Referential integrity *)

Lemma references_In (cs : list cat_row) (k : Z) :
  references cs k = true <-> In k (ids cs).
Proof.
  unfold references. rewrite existsb_exists. split.
  - intros (x & Hx & E). apply Z.eqb_eq in E. now subst.
  - intros H. exists k. split; [assumption | apply Z.eqb_refl].
Qed.

Lemma max_id_upper (l : list Z) (x : Z) : In x l -> x <= max_id l.
Proof.
  induction l as [|y l IH]; simpl; [tauto|].
  intros [->|H]; [lia | specialize (IH H); lia].
Qed.

Lemma next_id_fresh (seq : Z) (l : list Z) : ~ In (next_id seq l) l.
Proof.
  intros H. apply max_id_upper in H. unfold next_id in H. lia.
Qed.

Lemma has_external_id_In (e : string) (cs : list cat_row) :
  existsb (has_external_id e) cs = true <-> In e (external_ids cs).
Proof.
  unfold external_ids. rewrite existsb_exists, in_flat_map.
  split; intros (c & Hc & H); exists c; split; auto;
    unfold has_external_id in *; destruct (external_id c) as [e'|].
  - apply String.eqb_eq in H. subst. now left.
  - discriminate.
  - destruct H as [->|[]]. apply String.eqb_refl.
  - destruct H.
Qed.

Lemma external_ids_app (cs cs' : list cat_row) :
  external_ids (cs ++ cs') = external_ids cs ++ external_ids cs'.
Proof. unfold external_ids. apply flat_map_app. Qed.

Lemma NoDup_snoc {X : Type} (l : list X) (x : X) :
  NoDup l -> ~ In x l -> NoDup (l ++ [x]).
Proof.
  intros Hl Hx. apply (Permutation_NoDup (l := x :: l)).
  - apply Permutation_cons_append.
  - now constructor.
Qed.

Section Integrity.
Variable integer_affinity : json -> option Z.
Variable text_affinity : json -> option string.

Local Abbreviation Serve := (serve integer_affinity text_affinity).
Local Abbreviation Loop := (run_jobs integer_affinity text_affinity).
Local Abbreviation Exec := (exec integer_affinity text_affinity).
Local Abbreviation after_requests := (serve_all integer_affinity text_affinity).

Lemma insert_vote_cases (cat vote : jsval) (d : db) :
  (exists k t i,
     bind_integer integer_affinity cat = Some k /\ In k (ids (cats d)) /\
     insert_vote integer_affinity text_affinity cat vote d
     = (RunOk, mkDb (cats d) (votes d ++ [mkVote i k t]) (monthly_winners d)
                    (cats_seq d) i))
  \/ insert_vote integer_affinity text_affinity cat vote d
     = (Failure SQLITE_CONSTRAINT, d).
Proof.
  unfold insert_vote.
  destruct (bind_integer integer_affinity cat) as [k|]; [|now right].
  destruct (bind_text text_affinity vote) as [t|]; [|now right].
  destruct (references (cats d) k) eqn:E; [|now right].
  left. exists k, t, (next_id (votes_seq d) (map vote_id (votes d))).
  apply references_In in E. auto.
Qed.

Lemma insert_cat_cases (url ext : jsval) (d : db) :
  (exists u,
     bind_text text_affinity url = Some u /\
     (forall e, bind_text text_affinity ext = Some e -> ~ In e (external_ids (cats d))) /\
     insert_cat_or_ignore text_affinity url ext d
     = (RunOk, mkDb (cats d ++ [mkCat (next_id (cats_seq d) (ids (cats d))) u
                                      (bind_text text_affinity ext)])
                    (votes d) (monthly_winners d)
                    (next_id (cats_seq d) (ids (cats d))) (votes_seq d)))
  \/ ((bind_text text_affinity url = None \/
       exists e, bind_text text_affinity ext = Some e /\ In e (external_ids (cats d))) /\
      insert_cat_or_ignore text_affinity url ext d = (RunOk, consume_id d)).
Proof.
  unfold insert_cat_or_ignore.
  destruct (bind_text text_affinity url) as [u|]; [|right; auto].
  destruct (bind_text text_affinity ext) as [e|].
  - destruct (existsb (has_external_id e) (cats d)) eqn:E; simpl.
    + right. split; [|reflexivity]. right. exists e. split; [reflexivity|].
      now apply has_external_id_In.
    + left. exists u. repeat split. intros e' He'. injection He' as <-.
      intros Hin. apply has_external_id_In in Hin. congruence.
  - left. exists u. repeat split. discriminate.
Qed.

Lemma delete_cats_cases (d : db) :
  (delete_cats d = (RunOk, mkDb [] (votes d) (monthly_winners d)
                                (cats_seq d) (votes_seq d)) /\
   (forall v, In v (votes d) -> ~ In (vote_cat_id v) (ids (cats d))) /\
   (forall w, In w (monthly_winners d) -> ~ In (winner_cat_id w) (ids (cats d))))
  \/ delete_cats d = (Failure SQLITE_CONSTRAINT, d).
Proof.
  unfold delete_cats.
  destruct (existsb (fun v => references (cats d) (vote_cat_id v)) (votes d)) eqn:Ev;
    [now right|].
  destruct (existsb (fun w => references (cats d) (winner_cat_id w))
              (monthly_winners d)) eqn:Ew; [now right|].
  left. simpl. split; [reflexivity|]. split.
  - intros v Hv Hin. apply references_In in Hin.
    assert (existsb (fun v => references (cats d) (vote_cat_id v)) (votes d) = true)
      by (apply existsb_exists; eauto).
    congruence.
  - intros w Hw Hin. apply references_In in Hin.
    assert (existsb (fun w => references (cats d) (winner_cat_id w))
              (monthly_winners d) = true)
      by (apply existsb_exists; eauto).
    congruence.
Qed.

Lemma none_left {X : Type} (P : X -> Prop) (l : list X) :
  Forall P l -> (forall x, In x l -> ~ P x) -> Forall (fun _ => False) l.
Proof.
  intros HP HN. apply Forall_forall. intros x Hx.
  exact (HN x Hx (proj1 (Forall_forall _ _) HP x Hx)).
Qed.

(** Every statement keeps the foreign key of the votes table. *)
Lemma exec_keeps_votes_fk (fault : bool) (s : stmt) (d : db) :
  votes_reference_cats d -> votes_reference_cats (snd (Exec fault s d)).
Proof.
  unfold votes_reference_cats, exec. intros H.
  destruct fault; [exact H|].
  destruct s as [|m|cat vote|url ext| | |]; simpl; auto.
  - destruct (insert_vote_cases cat vote d) as [(k & t & i & _ & Hin & ->) | ->];
      simpl; auto.
    apply Forall_app. split; [exact H|]. now repeat constructor.
  - destruct (insert_cat_cases url ext d) as [(u & _ & _ & ->) | [_ ->]];
      simpl; auto.
    eapply Forall_impl; [|exact H]. intros v Hv. simpl in Hv.
    unfold ids. rewrite map_app. apply in_or_app. now left.
  - destruct (delete_cats_cases d) as [(-> & Hv & _) | ->]; simpl; auto.
    eapply Forall_impl; [|exact (none_left _ _ H Hv)]. intros v [].
Qed.

(** Every statement keeps all four promises of the schema. *)
Lemma exec_keeps_schema (fault : bool) (s : stmt) (d : db) :
  schema_ok d -> schema_ok (snd (Exec fault s d)).
Proof.
  intros Hok. pose proof (exec_keeps_votes_fk fault s d) as Hvotes.
  destruct Hok as (Hids & Hext & Hv & Hw). specialize (Hvotes Hv).
  unfold schema_ok. repeat split; try exact Hvotes; clear Hvotes;
    unfold unique_ids, unique_external_ids, winners_reference_cats, exec in *;
    (destruct fault; [assumption|]);
    destruct s as [|m|cat vote|url ext| | |]; simpl; auto;
    try (destruct (insert_vote_cases cat vote d) as [(k & t & i & _ & _ & ->) | ->];
         simpl; assumption);
    try (destruct (delete_cats_cases d) as [(-> & Hnv & Hnw) | ->]; simpl;
         try assumption; try constructor).
  - destruct (insert_cat_cases url ext d) as [(u & _ & _ & ->) | [_ ->]];
      simpl; auto.
    unfold ids. rewrite map_app. simpl. apply NoDup_snoc; [exact Hids|].
    apply next_id_fresh.
  - destruct (insert_cat_cases url ext d) as [(u & _ & Hfresh & ->) | [_ ->]];
      simpl; auto.
    rewrite external_ids_app. unfold external_ids at 2. simpl.
    destruct (bind_text text_affinity ext) as [e|]; simpl.
    + apply NoDup_snoc; [exact Hext|]. now apply Hfresh.
    + now rewrite app_nil_r.
  - destruct (insert_cat_cases url ext d) as [(u & _ & _ & ->) | [_ ->]];
      simpl; auto.
    eapply Forall_impl; [|exact Hw]. intros w Hin. simpl in Hin.
    unfold ids. rewrite map_app. apply in_or_app. now left.
  - eapply Forall_impl; [|exact (none_left _ _ Hw Hnw)]. intros w [].
Qed.

(** What every statement keeps, every request keeps, and so does every
    sequence of requests. *)
Lemma run_jobs_keeps (P : db -> Prop) :
  (forall fault s d, P d -> P (snd (Exec fault s d))) ->
  forall js faults d h, P d -> P (fst (fst (Loop faults js d h))).
Proof.
  intros Hstep. induction js as [|j js IH]; intros faults d h Hd; simpl; auto.
  specialize (Hstep (hd false faults) (job_stmt j) d Hd).
  destruct (Exec (hd false faults) (job_stmt j) d) as [r d1]. simpl in Hstep.
  specialize (IH (tl faults) d1 (job_callback j r h) Hstep).
  destruct (Loop (tl faults) js d1 (job_callback j r h)) as [[d2 h2] tr].
  exact IH.
Qed.

Lemma serve_keeps (P : db -> Prop) :
  (forall fault s d, P d -> P (snd (Exec fault s d))) ->
  forall faults req d, P d -> P (store (Serve faults req d)).
Proof.
  intros Hstep faults req d Hd. unfold serve.
  pose proof (run_jobs_keeps P Hstep (queued (route req)) faults d
                (if threw (route req) then send Uncaught (after (route req))
                 else after (route req)) Hd) as K.
  destruct (Loop faults (queued (route req)) d _) as [[d' h'] tr].
  exact K.
Qed.

Lemma serve_all_keeps (P : db -> Prop) :
  (forall fault s d, P d -> P (snd (Exec fault s d))) ->
  forall script d, P d -> P (after_requests script d).
Proof.
  intros Hstep. unfold serve_all.
  induction script as [|[faults req] script IH]; intros d Hd; simpl; auto.
  apply IH. now apply serve_keeps.
Qed.

Lemma empty_db_schema_ok : schema_ok empty_db.
Proof. repeat split; constructor. Qed.

(** C7, as the code has it: a vote of a valid type whose [cat_id] is not
    the id of a cat creates no row and leaves the database as it is.
    When the [cat_id] is truthy the vote reaches the Store, where the
    insert fails on the foreign key, and the answer is the 500 of
    [POST /api/votes]; when it is falsy (0, the empty string, false, null
    or missing) the vote is turned down with 400 before the Store is
    touched.  Every single statement keeps the rows of the votes table
    pointing at cats; hence, from a votes table that does (the empty
    database to begin with), no sequence of requests, whatever fails in
    between, leads to a vote row without its cat. *)
Theorem votes_always_reference_cats :
  (forall faults body d,
     prop "vote_type" body = Some (JString "upvote") \/
     prop "vote_type" body = Some (JString "downvote") ->
     (forall k, bind_integer integer_affinity (prop "cat_id" body) = Some k ->
                ~ In k (ids (cats d))) ->
     (truthy (prop "cat_id" body) = true ->
      trace (Serve faults (POST_votes body) d)
      = [(InsertVote (prop "cat_id" body) (prop "vote_type" body),
          Failure (if hd false faults then SQLITE_FAULT else SQLITE_CONSTRAINT))] /\
      response_sent (Serve faults (POST_votes body) d)
      = Some (Reply 500 (error_body "Failed to add vote"))) /\
     (truthy (prop "cat_id" body) = false ->
      trace (Serve faults (POST_votes body) d) = [] /\
      response_sent (Serve faults (POST_votes body) d)
      = Some (Reply 400 (error_body "Invalid cat_id or vote_type"))) /\
     store (Serve faults (POST_votes body) d) = d) /\
  (forall fault s d,
     votes_reference_cats d -> votes_reference_cats (snd (Exec fault s d))) /\
  (forall script d,
     votes_reference_cats d -> votes_reference_cats (after_requests script d)) /\
  (forall script, votes_reference_cats (after_requests script empty_db)).
Proof.
  split; [|split; [exact exec_keeps_votes_fk|split]].
  - intros faults body d Hvote Hunknown.
    destruct (truthy (prop "cat_id" body)) eqn:Hcat.
    + assert (Hguard : negb (truthy (prop "cat_id" body))
                       || negb (truthy (prop "vote_type" body))
                       || negb (includes ["upvote"; "downvote"] (prop "vote_type" body))
                       = false).
      { rewrite Hcat. destruct Hvote as [-> | ->]; reflexivity. }
      unfold serve. simpl route. unfold submitVote. rewrite Hguard.
      cbn [queued after threw run_jobs job_stmt job_callback].
      unfold exec. destruct (hd false faults).
      * simpl. repeat split; discriminate.
      * destruct (insert_vote_cases (prop "cat_id" body) (prop "vote_type" body) d)
          as [(k & t & i & Hk & Hin & _) | ->].
        -- exfalso. exact (Hunknown k Hk Hin).
        -- simpl. repeat split; discriminate.
    + unfold serve. simpl route. unfold submitVote. rewrite Hcat.
      simpl. repeat split; discriminate.
  - intros script d. apply serve_all_keeps. apply exec_keeps_votes_fk.
  - intros script. apply serve_all_keeps; [apply exec_keeps_votes_fk|].
    apply empty_db_schema_ok.
Qed.

(** The four promises of the schema hold after any sequence of requests
    on a database that had them. *)
Lemma schema_is_kept (script : list (list bool * request)) (d : db) :
  schema_ok d -> schema_ok (after_requests script d).
Proof. apply serve_all_keeps. apply exec_keeps_schema. Qed.

End Integrity.

(** ** Seeding *)

Lemma no_row_with (e : string) (cs : list cat_row) :
  ~ In e (external_ids cs) -> filter (has_external_id e) cs = [].
Proof.
  intros Hnot. apply filter_none. intros c Hc.
  destruct (has_external_id e c) eqn:E; [|reflexivity].
  exfalso. apply Hnot. apply has_external_id_In. apply existsb_exists. eauto.
Qed.

(** Under UNIQUE, an external id that occurs is carried by one row. *)
Lemma one_row_with (e : string) (cs : list cat_row) :
  NoDup (external_ids cs) -> In e (external_ids cs) ->
  List.length (filter (has_external_id e) cs) = 1%nat.
Proof.
  induction cs as [|c cs IH]; simpl; [tauto|].
  unfold external_ids. simpl. fold (external_ids cs).
  unfold has_external_id at 1.
  destruct (external_id c) as [e'|]; simpl.
  - intros Hnd Hin. inversion Hnd as [|x xs Hnotin Hnd']; subst.
    destruct (String.eqb e' e) eqn:E.
    + apply String.eqb_eq in E. subst e'.
      rewrite no_row_with by assumption. reflexivity.
    + apply String.eqb_neq in E. destruct Hin as [Heq|Hin]; [congruence|].
      now apply IH.
  - exact IH.
Qed.

Section Seeding.
Variable integer_affinity : json -> option Z.
Variable text_affinity : json -> option string.

Local Abbreviation Serve := (serve integer_affinity text_affinity).
Local Abbreviation Loop := (run_jobs integer_affinity text_affinity).
Local Abbreviation text := (bind_text text_affinity).
Local Abbreviation SeedOne := (seed_one text_affinity).
Local Abbreviation SeedStore := (seed_store text_affinity).

Lemma loop_inserts (items : list json) :
  forall d h, fst (fst (Loop [] (map insert_job items) d h)) = SeedStore items d.
Proof.
  induction items as [|c items IH]; intros d h; [reflexivity|].
  change (SeedStore (c :: items) d) with (SeedStore items (SeedOne d c)).
  unfold seed_one. simpl.
  destruct (insert_cat_or_ignore text_affinity (prop "url" c) (prop "id" c) d)
    as [r d1]. simpl.
  specialize (IH d1 (count_insert r h)).
  destruct (Loop [] (map insert_job items) d1 (count_insert r h)) as [[d2 h2] tr].
  exact IH.
Qed.

(** With a working Store, a batch without null entries leaves the
    database that inserting its entries one by one gives. *)
Lemma seedCats_store (body : json) (items : list json) (d : db) :
  isArray (prop "cats" body) = Some items -> ~ In JNull items ->
  store (Serve [] (POST_cats body) d) = SeedStore items d.
Proof.
  intros Harr Hnn. unfold serve. simpl route. unfold seedCats. rewrite Harr.
  destruct items as [|c rest]; [reflexivity|].
  rewrite (forEach_insert_objects (c :: rest) Hnn). cbn [threw after queued].
  pose proof (loop_inserts (c :: rest) d) as K.
  match goal with |- context [Loop [] ?js d ?h] =>
    specialize (K h); destruct (Loop [] js d h) as [[d' h'] tr]
  end.
  exact K.
Qed.

Lemma seed_one_grows (d : db) (c : json) (e : string) :
  In e (external_ids (cats d)) -> In e (external_ids (cats (SeedOne d c))).
Proof.
  intros He. unfold seed_one.
  destruct (insert_cat_cases text_affinity (prop "url" c) (prop "id" c) d)
    as [(u & _ & _ & ->) | [_ ->]]; simpl; auto.
  rewrite external_ids_app. apply in_or_app. now left.
Qed.

Lemma seed_one_covers (d : db) (c : json) (e : string) :
  text (prop "url" c) <> None -> text (prop "id" c) = Some e ->
  In e (external_ids (cats (SeedOne d c))).
Proof.
  intros Hu He. unfold seed_one.
  destruct (insert_cat_cases text_affinity (prop "url" c) (prop "id" c) d)
    as [(u & _ & _ & ->) | [[Hnone | (e' & He' & Hin)] ->]]; simpl.
  - rewrite external_ids_app. apply in_or_app. right.
    unfold external_ids. simpl. rewrite He. now left.
  - contradiction.
  - congruence.
Qed.

Lemma seed_one_unique (d : db) (c : json) :
  unique_external_ids d -> unique_external_ids (SeedOne d c).
Proof.
  unfold unique_external_ids, seed_one. intros Hnd.
  destruct (insert_cat_cases text_affinity (prop "url" c) (prop "id" c) d)
    as [(u & _ & Hfresh & ->) | [_ ->]]; simpl; auto.
  rewrite external_ids_app. unfold external_ids at 2. simpl.
  destruct (text (prop "id" c)) as [e|]; simpl.
  - apply NoDup_snoc; [exact Hnd|]. now apply Hfresh.
  - now rewrite app_nil_r.
Qed.

Lemma seed_one_origin (d : db) (c : json) (row : cat_row) :
  In row (cats (SeedOne d c)) ->
  In row (cats d) \/
  (external_id row = text (prop "id" c) /\ text (prop "url" c) = Some (image_url row)).
Proof.
  unfold seed_one.
  destruct (insert_cat_cases text_affinity (prop "url" c) (prop "id" c) d)
    as [(u & Hu & _ & ->) | [_ ->]]; simpl; auto.
  intros Hin. apply in_app_or in Hin. destruct Hin as [Hin | [<- | []]]; auto.
Qed.

Lemma seed_one_noop (d : db) (c : json) :
  text (prop "url" c) = None \/
  (exists e, text (prop "id" c) = Some e /\ In e (external_ids (cats d))) ->
  SeedOne d c = consume_id d.
Proof.
  intros Hskip. unfold seed_one.
  destruct (insert_cat_cases text_affinity (prop "url" c) (prop "id" c) d)
    as [(u & Hu & Hfresh & _) | [_ ->]]; [|reflexivity].
  exfalso. destruct Hskip as [Hnone | (e & He & Hin)]; [congruence|].
  exact (Hfresh e He Hin).
Qed.

Lemma seed_store_grows (items : list json) :
  forall d e, In e (external_ids (cats d)) ->
              In e (external_ids (cats (SeedStore items d))).
Proof.
  induction items as [|c items IH]; intros d e He; simpl; auto.
  apply IH. now apply seed_one_grows.
Qed.

Lemma seed_store_covers (items : list json) :
  forall d c e,
    In c items -> text (prop "url" c) <> None -> text (prop "id" c) = Some e ->
    In e (external_ids (cats (SeedStore items d))).
Proof.
  induction items as [|c0 items IH]; intros d c e Hc Hu He; simpl; [destruct Hc|].
  destruct Hc as [-> | Hc].
  - apply seed_store_grows. now apply seed_one_covers.
  - now apply (IH _ c).
Qed.

Lemma seed_store_unique (items : list json) :
  forall d, unique_external_ids d -> unique_external_ids (SeedStore items d).
Proof.
  induction items as [|c items IH]; intros d Hd; simpl; auto.
  apply IH. now apply seed_one_unique.
Qed.

Lemma seed_store_origin (items : list json) :
  forall d row,
    In row (cats (SeedStore items d)) ->
    In row (cats d) \/
    exists c, In c items /\ external_id row = text (prop "id" c) /\
              text (prop "url" c) = Some (image_url row).
Proof.
  induction items as [|c items IH]; intros d row Hrow; simpl in *; auto.
  destruct (IH _ _ Hrow) as [Hin | (c' & Hc' & H1 & H2)].
  - destruct (seed_one_origin d c row Hin) as [Hd | [H1 H2]]; [now left|].
    right. exists c. auto.
  - right. exists c'. auto.
Qed.

(** A batch all of whose entries are skipped leaves the rows alone. *)
Lemma seed_store_noop (items : list json) :
  forall d,
    (forall c, In c items ->
       text (prop "url" c) = None \/
       (exists e, text (prop "id" c) = Some e /\ In e (external_ids (cats d)))) ->
    cats (SeedStore items d) = cats d.
Proof.
  induction items as [|c items IH]; intros d Hskip; simpl; [reflexivity|].
  rewrite seed_one_noop by (apply Hskip; now left).
  rewrite IH; [reflexivity|].
  intros c' Hc'. apply Hskip. now right.
Qed.

Lemma seed_store_seeded (items : list json) (d : db) :
  unique_external_ids d -> seeded_once text items d (SeedStore items d).
Proof.
  intros Hd. pose proof (seed_store_unique items d Hd) as Huniq.
  repeat split.
  - intros c e Hc He Hu.
    apply (one_row_with e (cats (SeedStore items d)) Huniq).
    now apply (seed_store_covers items d c).
  - exact Huniq.
  - apply seed_store_origin.
Qed.

Lemma seeded_once_perm (items items' : list json) (d d' : db) :
  Permutation items items' ->
  seeded_once text items' d d' -> seeded_once text items d d'.
Proof.
  intros Hp (Hone & Huniq & Horigin). repeat split.
  - intros c e Hc. apply Hone. exact (Permutation_in _ Hp Hc).
  - exact Huniq.
  - intros row Hrow. destruct (Horigin row Hrow) as [H | (c & Hc & H)]; [now left|].
    right. exists c. split; [|exact H].
    exact (Permutation_in _ (Permutation_sym Hp) Hc).
Qed.

(** The inserts of [items], run in any order, leave what seeding leaves. *)
Lemma any_order_seeded (items : list json) (order : list job) (d : db) (h : hstate) :
  unique_external_ids d ->
  Permutation (map insert_job items) order ->
  seeded_once text items d (fst (fst (Loop [] order d h))).
Proof.
  intros Hd Hp. apply Permutation_sym, Permutation_map_inv in Hp.
  destruct Hp as (items' & -> & Hp).
  rewrite loop_inserts. apply (seeded_once_perm items items'); [exact Hp|].
  now apply seed_store_seeded.
Qed.

End Seeding.

Section Reseeding.
Variable integer_affinity : json -> option Z.
Variable text_affinity : json -> option string.

Local Abbreviation text := (bind_text text_affinity).
Local Abbreviation Loop := (run_jobs integer_affinity text_affinity).
Local Abbreviation after_requests := (serve_all integer_affinity text_affinity).

(** C5, as the code has it: two batches of cat objects, seeded on a
    working Store, leave exactly one row for every non-null external id
    that some entry carries together with a non-null url; no external id
    is on two rows, and every row was there before or comes from an
    entry.  This holds when the calls are served one after the other and
    for every order in which the inserts of the two calls reach the
    Store.  Seeding the same batch again leaves the cats table as it is
    when each of its entries with a url has a non-null id, again for
    every order of the inserts of each call. *)
Theorem reseeding_keeps_one_row_per_external_id
    (b1 b2 : json) (l1 l2 : list json) (d : db) :
  isArray (prop "cats" b1) = Some l1 ->
  isArray (prop "cats" b2) = Some l2 ->
  ~ In JNull (l1 ++ l2) ->
  unique_external_ids d ->
  seeded_once text (l1 ++ l2) d
    (after_requests [([], POST_cats b1); ([], POST_cats b2)] d) /\
  (forall order h,
     Permutation (queued (seedCats b1) ++ queued (seedCats b2)) order ->
     seeded_once text (l1 ++ l2) d (fst (fst (Loop [] order d h)))) /\
  (l2 = l1 ->
   (forall c, In c l1 -> text (prop "url" c) <> None -> text (prop "id" c) <> None) ->
   cats (after_requests [([], POST_cats b1); ([], POST_cats b2)] d)
   = cats (after_requests [([], POST_cats b1)] d) /\
   forall first second h1 h2,
     Permutation (queued (seedCats b1)) first ->
     Permutation (queued (seedCats b2)) second ->
     cats (fst (fst (Loop [] second (fst (fst (Loop [] first d h1))) h2)))
     = cats (fst (fst (Loop [] first d h1)))).
Proof.
  intros H1 H2 Hnn Hd.
  assert (Hn1 : ~ In JNull l1) by (intros H; apply Hnn, in_or_app; now left).
  assert (Hn2 : ~ In JNull l2) by (intros H; apply Hnn, in_or_app; now right).
  assert (Honce : after_requests [([], POST_cats b1)] d = seed_store text_affinity l1 d).
  { unfold serve_all. simpl. now apply seedCats_store. }
  assert (Htwice : after_requests [([], POST_cats b1); ([], POST_cats b2)] d
                   = seed_store text_affinity (l1 ++ l2) d).
  { unfold serve_all. simpl.
    rewrite (seedCats_store _ _ b1 l1 d H1 Hn1).
    rewrite (seedCats_store _ _ b2 l2 _ H2 Hn2).
    unfold seed_store. now rewrite fold_left_app. }
  assert (Hagain : forall i1 i2,
            Permutation l1 i1 -> Permutation l1 i2 ->
            (forall c, In c l1 -> text (prop "url" c) <> None ->
                       text (prop "id" c) <> None) ->
            cats (seed_store text_affinity i2 (seed_store text_affinity i1 d))
            = cats (seed_store text_affinity i1 d)).
  { intros i1 i2 P1 P2 Hids. apply (seed_store_noop text_affinity).
    intros c Hc. apply (Permutation_in _ (Permutation_sym P2)) in Hc.
    destruct (text (prop "url" c)) as [u|] eqn:Eu; [right | now left].
    destruct (text (prop "id" c)) as [e|] eqn:Ee.
    - exists e. split; [reflexivity|].
      apply (seed_store_covers text_affinity i1 d c);
        [exact (Permutation_in _ P1 Hc) | congruence | exact Ee].
    - exfalso. apply (Hids c Hc); congruence. }
  rewrite Htwice, Honce.
  rewrite (seedCats_queued b1 l1 H1 Hn1).
  rewrite (seedCats_queued b2 l2 H2 Hn2).
  split; [|split].
  - now apply (seed_store_seeded text_affinity).
  - intros order h Hp. rewrite <- map_app in Hp.
    now apply (any_order_seeded integer_affinity text_affinity).
  - intros -> Hids. split.
    + unfold seed_store at 1. rewrite fold_left_app.
      exact (Hagain l1 l1 (Permutation_refl _) (Permutation_refl _) Hids).
    + intros first second h1 h2 P1 P2.
      apply Permutation_sym, Permutation_map_inv in P1, P2.
      destruct P1 as (i1 & -> & P1). destruct P2 as (i2 & -> & P2).
      rewrite !(loop_inserts integer_affinity text_affinity).
      now apply Hagain.
Qed.

End Reseeding.

(** ** The model run on concrete requests *)

Lemma no_null_entries : ~ In JNull (entries_one ++ entries_two).
Proof. simpl. unfold cat_entry. intuition discriminate. Qed.

Lemma no_null_entries_one : ~ In JNull (entries_one ++ entries_one).
Proof. simpl. unfold cat_entry. intuition discriminate. Qed.

Lemma reseeding_keeps_one_row_per_external_id_witness :
  cats (serve_all sqlite_integer sqlite_text
          [([], POST_cats (cats_body entries_one));
           ([], POST_cats (cats_body entries_two))] empty_db)
  = [mkCat 1 "http://x/1.jpg" (Some "c1"); mkCat 2 "http://x/2.jpg" (Some "c2");
     mkCat 4 "http://x/3.jpg" (Some "c3")] /\
  seeded_once (bind_text sqlite_text) (entries_one ++ entries_two) empty_db
    (serve_all sqlite_integer sqlite_text
       [([], POST_cats (cats_body entries_one));
        ([], POST_cats (cats_body entries_two))] empty_db) /\
  cats (serve_all sqlite_integer sqlite_text
          [([], POST_cats (cats_body entries_one));
           ([], POST_cats (cats_body entries_one))] empty_db)
  = cats (serve_all sqlite_integer sqlite_text
            [([], POST_cats (cats_body entries_one))] empty_db).
Proof.
  split; [reflexivity|]. split.
  - apply (reseeding_keeps_one_row_per_external_id sqlite_integer sqlite_text
             (cats_body entries_one) (cats_body entries_two)
             entries_one entries_two empty_db eq_refl eq_refl no_null_entries).
    constructor.
  - apply (reseeding_keeps_one_row_per_external_id sqlite_integer sqlite_text
             (cats_body entries_one) (cats_body entries_one)
             entries_one entries_one empty_db eq_refl eq_refl no_null_entries_one).
    + constructor.
    + reflexivity.
    + intros c Hc _. simpl in Hc. destruct Hc as [<-|[<-|[]]]; discriminate.
Defined.

(** C5, as stated, against the code: an entry with an external id and a
    null url leaves no row for that id, and an entry with a url and a null
    id is inserted again each time the batch is seeded.  The skipped
    entry uses up an id each time. *)
Lemma reseeding_counterexample :
  let batch := cats_body [cat_entry (JString "c1") JNull;
                          cat_entry JNull (JString "http://x/9.jpg")] in
  let once := store (run [] (POST_cats batch) empty_db) in
  let twice := store (run [] (POST_cats batch) once) in
  filter (fun row => match external_id row with
                     | Some e => String.eqb e "c1"
                     | None => false
                     end) (cats twice) = [] /\
  cats once = [mkCat 2 "http://x/9.jpg" None] /\
  cats twice = [mkCat 2 "http://x/9.jpg" None; mkCat 4 "http://x/9.jpg" None] /\
  cats twice <> cats once.
Proof. repeat split. discriminate. Qed.

(** C2 against the code: seeding one new cat into the empty database
    creates one row, and the response reports [inserted: 0]: it is sent
    at the end of the handler's body, before any insert has called back.
    The counter reaches 1 only afterwards, and it would reach 1 as well
    for a row that was ignored as a duplicate. *)
Theorem seedCats_reports_zero_inserted :
  let batch := cats_body [cat_entry (JString "c1") (JString "http://x/1.jpg")] in
  let first := run [] (POST_cats batch) empty_db in
  let again := run [] (POST_cats batch) (store first) in
  cats empty_db = [] /\
  cats (store first) = [mkCat 1 "http://x/1.jpg" (Some "c1")] /\
  response_sent first = Some (Reply 200 (success_body "inserted" (JNumber 0))) /\
  inserted (closure first) = 1 /\
  cats (store again) = cats (store first) /\
  inserted (closure again) = 1.
Proof. repeat split. Qed.



Lemma submitVote_rejects_invalid_witness :
  (prop "vote_type" (vote_body (JNumber 1) "Upvote") <> Some (JString "upvote") /\
   prop "vote_type" (vote_body (JNumber 1) "Upvote") <> Some (JString "downvote")) /\
  response_sent (run [] (POST_votes (vote_body (JNumber 1) "Upvote")) sample_db)
  = Some (Reply 400 (error_body "Invalid cat_id or vote_type")) /\
  trace (run [] (POST_votes (vote_body (JNumber 1) "Upvote")) sample_db) = [] /\
  votes (store (run [] (POST_votes (vote_body (JNumber 1) "Upvote")) sample_db))
  = votes sample_db.
Proof.
  assert (H : prop "vote_type" (vote_body (JNumber 1) "Upvote") <> Some (JString "upvote") /\
              prop "vote_type" (vote_body (JNumber 1) "Upvote") <> Some (JString "downvote"))
    by (split; discriminate).
  split; [exact H|].
  destruct (submitVote_rejects_invalid sqlite_integer sqlite_text []
              (vote_body (JNumber 1) "Upvote") sample_db (or_introl H))
    as (_ & Hresp & Htrace & _ & Hvotes).
  auto.
Defined.

Lemma votes_always_reference_cats_witness :
  trace (run [] (POST_votes (vote_body (JNumber 7) "upvote")) sample_db)
  = [(InsertVote (Some (JNumber 7)) (Some (JString "upvote")),
      Failure SQLITE_CONSTRAINT)] /\
  response_sent (run [] (POST_votes (vote_body (JNumber 7) "upvote")) sample_db)
  = Some (Reply 500 (error_body "Failed to add vote")) /\
  store (run [] (POST_votes (vote_body (JNumber 7) "upvote")) sample_db) = sample_db /\
  votes_reference_cats
    (serve_all sqlite_integer sqlite_text
       [([], POST_cats (cats_body [cat_entry (JString "c1") (JString "http://x/1.jpg")]));
        ([], POST_votes (vote_body (JNumber 1) "upvote"));
        ([false; false; true], POST_clear);
        ([], POST_votes (vote_body (JNumber 2) "downvote"))]
       empty_db).
Proof.
  destruct (votes_always_reference_cats sqlite_integer sqlite_text)
    as (Hreject & _ & _ & Hreach).
  destruct (Hreject [] (vote_body (JNumber 7) "upvote") sample_db)
    as (Htruthy & _ & Hstore).
  - now left.
  - intros k Hk. injection Hk as <-. simpl. intuition discriminate.
  - destruct (Htruthy eq_refl) as [Htrace Hresp].
    split; [exact Htrace|]. split; [exact Hresp|]. split; [exact Hstore | apply Hreach].
Defined.

(** C7, as stated, against the code: 0 is the id of no cat, and a vote
    for it never reaches the Store: no insert is tried, no constraint
    fails, and the answer is the 400 of the validation, not a server
    error. *)
Lemma vote_for_cat_zero_counterexample :
  ~ In 0 (ids (cats sample_db)) /\
  trace (run [] (POST_votes (vote_body (JNumber 0) "upvote")) sample_db) = [] /\
  response_sent (run [] (POST_votes (vote_body (JNumber 0) "upvote")) sample_db)
  = Some (Reply 400 (error_body "Invalid cat_id or vote_type")) /\
  votes (store (run [] (POST_votes (vote_body (JNumber 0) "upvote")) sample_db))
  = votes sample_db.
Proof.
  split; [|repeat split]. simpl. intuition discriminate.
Qed.

(** * Further properties of the backend *)

Lemma count_votes_snoc (kind : string) (k : Z) (vs : list vote_row) (v : vote_row) :
  count_votes kind k (vs ++ [v])
  = count_votes kind k vs
    + (if (vote_cat_id v =? k) && String.eqb (vote_type v) kind then 1 else 0).
Proof.
  unfold count_votes. rewrite filter_app, length_app, Nat2Z.inj_add. simpl.
  destruct ((vote_cat_id v =? k) && String.eqb (vote_type v) kind); reflexivity.
Qed.

Lemma extends_refl {X : Type} (l : list X) : extends l l.
Proof. exists []. now rewrite app_nil_r. Qed.

Lemma extends_trans {X : Type} (l1 l2 l3 : list X) :
  extends l1 l2 -> extends l2 l3 -> extends l1 l3.
Proof.
  intros [m1 ->] [m2 ->]. exists (m1 ++ m2). now rewrite app_assoc.
Qed.

Section Composition.
Variable integer_affinity : json -> option Z.
Variable text_affinity : json -> option string.

Local Abbreviation Serve := (serve integer_affinity text_affinity).
Local Abbreviation Loop := (run_jobs integer_affinity text_affinity).
Local Abbreviation Exec := (exec integer_affinity text_affinity).
Local Abbreviation after_requests := (serve_all integer_affinity text_affinity).

(** A relation between the database before and after that holds across
    each statement of a queue holds across the queue. *)
Lemma run_jobs_relates (R : db -> db -> Prop) (P : stmt -> Prop) :
  (forall d, R d d) ->
  (forall d1 d2 d3, R d1 d2 -> R d2 d3 -> R d1 d3) ->
  (forall fault s d, P s -> R d (snd (Exec fault s d))) ->
  forall js, Forall (fun j => P (job_stmt j)) js ->
  forall faults d h, R d (fst (fst (Loop faults js d h))).
Proof.
  intros Hrefl Htrans Hstep js Hjs.
  induction Hjs as [|j js Hj _ IH]; intros faults d h; simpl; auto.
  specialize (Hstep (hd false faults) (job_stmt j) d Hj).
  destruct (Exec (hd false faults) (job_stmt j) d) as [r d1]. simpl in Hstep.
  specialize (IH (tl faults) d1 (job_callback j r h)).
  destruct (Loop (tl faults) js d1 (job_callback j r h)) as [[d2 h2] tr].
  simpl in *. eauto.
Qed.

Lemma serve_relates (R : db -> db -> Prop) (P : stmt -> Prop) (req : request) :
  (forall d, R d d) ->
  (forall d1 d2 d3, R d1 d2 -> R d2 d3 -> R d1 d3) ->
  (forall fault s d, P s -> R d (snd (Exec fault s d))) ->
  Forall (fun j => P (job_stmt j)) (queued (route req)) ->
  forall faults d, R d (store (Serve faults req d)).
Proof.
  intros Hrefl Htrans Hstep Hjs faults d. unfold serve.
  pose proof (run_jobs_relates R P Hrefl Htrans Hstep _ Hjs faults d
                (if threw (route req) then send Uncaught (after (route req))
                 else after (route req))) as K.
  destruct (Loop faults (queued (route req)) d _) as [[d' h'] tr].
  exact K.
Qed.

Lemma forEach_insert_stmts (items : list json) :
  Forall (fun j => exists url ext, job_stmt j = InsertCatOrIgnore url ext)
         (fst (forEach_insert items)).
Proof.
  induction items as [|c rest IH]; simpl; [constructor|].
  destruct (forEach_insert rest) as [js t].
  destruct c; simpl; try constructor; simpl; eauto.
Qed.

Lemma seedCats_stmts (body : json) :
  Forall (fun j => exists url ext, job_stmt j = InsertCatOrIgnore url ext)
         (queued (seedCats body)).
Proof.
  unfold seedCats.
  destruct (isArray (prop "cats" body)) as [[|c rest]|]; try constructor.
  pose proof (forEach_insert_stmts (c :: rest)) as K.
  destruct (forEach_insert (c :: rest)) as [js [|]]; exact K.
Qed.

Lemma seeding_frame_step (fault : bool) (s : stmt) (d : db) :
  (exists url ext, s = InsertCatOrIgnore url ext) ->
  seeding_frame d (snd (Exec fault s d)).
Proof.
  intros (url & ext & ->). unfold seeding_frame, exec.
  destruct fault; simpl.
  - repeat split; auto using extends_refl. lia.
  - destruct (insert_cat_cases text_affinity url ext d) as [(u & _ & _ & ->) | [_ ->]];
      simpl; repeat split; auto using extends_refl; try (unfold next_id; lia).
    eexists. reflexivity.
Qed.

(** X2: what each request can and cannot touch, whatever fails in the
    Store.  The three GETs leave the database as it is.  A vote leaves
    cats and winners alone and appends at most one row to votes.  A
    seeding leaves votes and winners alone and only appends to cats:
    no existing cat row is removed or changed.  A clear leaves each
    table either as it was or empty. *)
Theorem requests_frame (faults : list bool) (req : request) (d : db) :
  match req with
  | GET_cats | GET_winner _ | GET_health => store (Serve faults req d) = d
  | POST_votes _ =>
      cats (store (Serve faults req d)) = cats d /\
      monthly_winners (store (Serve faults req d)) = monthly_winners d /\
      cats_seq (store (Serve faults req d)) = cats_seq d /\
      (votes (store (Serve faults req d)) = votes d \/
       exists v, votes (store (Serve faults req d)) = votes d ++ [v])
  | POST_cats _ => seeding_frame d (store (Serve faults req d))
  | POST_clear =>
      (votes (store (Serve faults req d)) = votes d \/
       votes (store (Serve faults req d)) = []) /\
      (monthly_winners (store (Serve faults req d)) = monthly_winners d \/
       monthly_winners (store (Serve faults req d)) = []) /\
      (cats (store (Serve faults req d)) = cats d \/
       cats (store (Serve faults req d)) = []) /\
      cats_seq (store (Serve faults req d)) = cats_seq d /\
      votes_seq (store (Serve faults req d)) = votes_seq d
  end.
Proof.
  destruct req as [|now|body|body| |].
  - unfold serve, exec. simpl. destruct (hd false faults); reflexivity.
  - unfold serve, exec. simpl. destruct (hd false faults); reflexivity.
  - unfold serve. simpl route. unfold submitVote.
    destruct (negb (truthy (prop "cat_id" body))
              || negb (truthy (prop "vote_type" body))
              || negb (includes ["upvote"; "downvote"] (prop "vote_type" body))).
    + simpl. auto.
    + cbn [queued after threw run_jobs job_stmt job_callback]. unfold exec.
      destruct (hd false faults); [simpl; auto|].
      destruct (insert_vote_cases integer_affinity text_affinity
                  (prop "cat_id" body) (prop "vote_type" body) d)
        as [(k & t & i & _ & _ & ->) | ->]; simpl; eauto 6.
  - apply (serve_relates seeding_frame
             (fun s => exists url ext, s = InsertCatOrIgnore url ext)).
    + intros d0. unfold seeding_frame. repeat split; auto using extends_refl. lia.
    + intros d1 d2 d3 (E1 & V1 & W1 & S1 & Q1) (E2 & V2 & W2 & S2 & Q2).
      unfold seeding_frame. repeat split; try congruence; try lia.
      eapply extends_trans; eauto.
    + apply seeding_frame_step.
    + apply seedCats_stmts.
  - unfold serve, exec. simpl.
    destruct (hd false faults), (hd false (tl faults)), (hd false (tl (tl faults)));
      simpl;
      try match goal with
          | |- context [delete_cats ?x] =>
              destruct (delete_cats_cases x) as [(-> & _ & _) | ->]
          end; simpl; auto 10.
  - reflexivity.
Qed.

Lemma expected_score_bump (kind : string) (k : Z) (vs : list vote_row)
    (i : Z) (c : cat_row) :
  kind = "upvote" \/ kind = "downvote" ->
  expected_score (vs ++ [mkVote i k kind]) c = bump kind k (expected_score vs c).
Proof.
  intros Hkind. unfold expected_score, bump. rewrite !count_votes_snoc. simpl.
  rewrite (Z.eqb_sym k (cat_id c)).
  destruct (cat_id c =? k); simpl.
  - reflexivity.
  - now rewrite !Z.add_0_r.
Qed.

(** X1: a vote of a valid type for an existing cat, on a working Store,
    is answered with success and appends one row to votes under a new
    id.  In the array of [{id, image_url, upvotes, downvotes}] objects
    served next, that cat's count of that type is one higher and every
    other count is as in the array served before. *)
Theorem vote_then_list (body : json) (d : db) (k : Z) (kind : string) :
  unique_ids d ->
  truthy (prop "cat_id" body) = true ->
  bind_integer integer_affinity (prop "cat_id" body) = Some k ->
  In k (ids (cats d)) ->
  prop "vote_type" body = Some (JString kind) ->
  kind = "upvote" \/ kind = "downvote" ->
  response_sent (Serve [] (POST_votes body) d)
  = Some (Reply 200 (success_body "message" (JString "Vote recorded"))) /\
  cats (store (Serve [] (POST_votes body) d)) = cats d /\
  (exists i, ~ In i (map vote_id (votes d)) /\
             votes (store (Serve [] (POST_votes body) d))
             = votes d ++ [mkVote i k kind]) /\
  exists before after,
    response_sent (Serve [] GET_cats d)
    = Some (Reply 200
              (JArray (map (fun r => JObject [("id", JNumber (score_id r));
                                              ("image_url", JString (score_image_url r));
                                              ("upvotes", JNumber (upvotes r));
                                              ("downvotes", JNumber (downvotes r))])
                           before))) /\
    response_sent (Serve [] GET_cats (store (Serve [] (POST_votes body) d)))
    = Some (Reply 200
              (JArray (map (fun r => JObject [("id", JNumber (score_id r));
                                              ("image_url", JString (score_image_url r));
                                              ("upvotes", JNumber (upvotes r));
                                              ("downvotes", JNumber (downvotes r))])
                           after))) /\
    Permutation after (map (bump kind k) before).
Proof.
  intros Hids Hcat Hk Hin Hvote Hkind.
  assert (Hguard : negb (truthy (prop "cat_id" body))
                   || negb (truthy (prop "vote_type" body))
                   || negb (includes ["upvote"; "downvote"] (prop "vote_type" body))
                   = false).
  { rewrite Hcat, Hvote. destruct Hkind as [-> | ->]; reflexivity. }
  assert (Hrun : Serve [] (POST_votes body) d
                 = mkServed
                     (Some (Reply 200 (success_body "message" (JString "Vote recorded"))))
                     (mkDb (cats d)
                           (votes d ++ [mkVote (next_id (votes_seq d) (map vote_id (votes d)))
                                               k kind])
                           (monthly_winners d) (cats_seq d)
                           (next_id (votes_seq d) (map vote_id (votes d))))
                     [(InsertVote (prop "cat_id" body) (prop "vote_type" body), RunOk)]
                     (mkH 0 (Some (Reply 200 (success_body "message"
                                                (JString "Vote recorded")))) [])).
  { unfold serve. simpl route. unfold submitVote. rewrite Hguard.
    cbn [queued after threw run_jobs job_stmt job_callback hd tl].
    unfold exec, insert_vote. rewrite Hk, Hvote. cbn [bind_text].
    rewrite (proj2 (references_In (cats d) k) Hin). reflexivity. }
  rewrite Hrun. cbn [response_sent store cats votes].
  split; [reflexivity|]. split; [reflexivity|]. split.
  - eexists. split; [apply next_id_fresh | reflexivity].
  - exists (select_cats d).
    eexists (select_cats (mkDb _ _ _ _ _)).
    split; [reflexivity|]. split; [reflexivity|].
    rewrite !select_cats_rows by assumption. cbn [cats votes].
    rewrite order_by_perm.
    rewrite (Permutation_map _ (order_by_perm _ _ _)).
    rewrite map_map.
    erewrite map_ext; [reflexivity|].
    intros c. now apply expected_score_bump.
Qed.

(** X3: a seeding whose [cats] is missing, not an array, or an empty
    array is answered 400; no statement is queued and the database is as
    before. *)
Theorem seedCats_rejects_invalid (faults : list bool) (body : json) (d : db) :
  isArray (prop "cats" body) = None \/ isArray (prop "cats" body) = Some [] ->
  queued (seedCats body) = [] /\
  response_sent (Serve faults (POST_cats body) d)
  = Some (Reply 400 (error_body "Invalid cats data")) /\
  trace (Serve faults (POST_cats body) d) = [] /\
  store (Serve faults (POST_cats body) d) = d.
Proof.
  intros Hbad. unfold serve. simpl route. unfold seedCats.
  destruct Hbad as [-> | ->]; repeat split.
Qed.

Lemma forEach_insert_until_null (pre post : list json) :
  ~ In JNull pre ->
  forEach_insert (pre ++ JNull :: post) = (map insert_job pre, true).
Proof.
  induction pre as [|c pre IH]; intros Hnn; simpl; [reflexivity|].
  rewrite IH by (intros H; apply Hnn; now right).
  destruct c; try reflexivity. exfalso. apply Hnn. now left.
Qed.

(** X4: when the batch holds a null entry the handler throws on it: the
    request is answered by the framework's error response (500), the
    entries before the first null have been queued, one statement each,
    and on a working Store they are inserted as in a batch without the
    null; no entry after the null is looked at. *)
Theorem seedCats_null_entry (faults : list bool) (body : json)
    (pre post : list json) (d : db) :
  isArray (prop "cats" body) = Some (pre ++ JNull :: post) ->
  ~ In JNull pre ->
  response_sent (Serve faults (POST_cats body) d) = Some Uncaught /\
  status_of Uncaught = 500 /\
  List.length (trace (Serve faults (POST_cats body) d)) = List.length pre /\
  store (Serve [] (POST_cats body) d) = seed_store text_affinity pre d.
Proof.
  intros Harr Hnn.
  assert (Hsync : seedCats body = mkSync (map insert_job pre) fresh true).
  { unfold seedCats. rewrite Harr.
    destruct (pre ++ JNull :: post) as [|c rest] eqn:E.
    - destruct pre; discriminate.
    - rewrite <- E. now rewrite (forEach_insert_until_null pre post Hnn). }
  split; [|split; [reflexivity|split]].
  - apply early_response.
    + simpl route. now rewrite Hsync.
    + simpl route. rewrite Hsync. cbn [queued].
      apply Forall_forall. intros j Hj. apply in_map_iff in Hj.
      destruct Hj as (c0 & <- & _). apply insert_job_keeps_sent.
  - unfold serve. simpl route. rewrite Hsync. cbn [queued after threw].
    pose proof (loop_trace_length integer_affinity text_affinity (map insert_job pre)
                  faults d (send Uncaught fresh)) as K.
    destruct (Loop faults (map insert_job pre) d (send Uncaught fresh)) as [[d' h'] tr].
    simpl in *. now rewrite K, length_map.
  - unfold serve. simpl route. rewrite Hsync. cbn [queued after threw].
    pose proof (loop_inserts integer_affinity text_affinity pre d (send Uncaught fresh)) as K.
    destruct (Loop [] (map insert_job pre) d (send Uncaught fresh)) as [[d' h'] tr].
    exact K.
Qed.

(** X5: the promises of the schema (unique cat ids, unique non-null
    external ids, votes and winners pointing at cats) are kept by every
    statement and so by every sequence of requests, whatever fails in
    the Store; they hold in every database reached from the empty one. *)
Theorem schema_kept_by_requests :
  (forall fault s d, schema_ok d -> schema_ok (snd (Exec fault s d))) /\
  (forall script d, schema_ok d -> schema_ok (after_requests script d)) /\
  (forall script, schema_ok (after_requests script empty_db)).
Proof.
  split; [apply exec_keeps_schema|]. split.
  - intros script d. apply serve_all_keeps. apply exec_keeps_schema.
  - intros script. apply serve_all_keeps; [apply exec_keeps_schema|].
    apply empty_db_schema_ok.
Qed.






(** X24: [POST /api/clear] answers before it deletes.  Whatever fails in
    the Store the answer is 200 with [success: true], and the three
    DELETEs are all tried, on votes, on monthly_winners and on cats in
    this order.  When the DELETE on votes fails and a vote is left that
    points at a cat, the DELETE on cats is refused by the foreign key
    even if nothing else fails: votes and cats stay as they were, behind
    an answer that reports success. *)
Theorem clearAll_answers_before_deleting (faults : list bool) (d : db) :
  response_sent (Serve faults POST_clear d)
  = Some (Reply 200 (JObject [("success", JBool true);
                              ("message", JString "Database cleared")])) /\
  map fst (trace (Serve faults POST_clear d))
  = [DeleteVotes; DeleteWinners; DeleteCats] /\
  (hd false faults = true ->
   (exists v, In v (votes d) /\ In (vote_cat_id v) (ids (cats d))) ->
   votes (store (Serve faults POST_clear d)) = votes d /\
   cats (store (Serve faults POST_clear d)) = cats d /\
   exists e, In (DeleteCats, Failure e) (trace (Serve faults POST_clear d))).
Proof.
  split; [apply clearAll_response|]. split.
  - unfold serve, exec. simpl.
    destruct (hd false faults), (hd false (tl faults)), (hd false (tl (tl faults)));
      simpl;
      try match goal with
          | |- context [delete_cats ?x] => destruct (delete_cats x)
          end; reflexivity.
  - intros Hfault (v & Hv & Hin).
    assert (Hrefused : forall ws,
              delete_cats (mkDb (cats d) (votes d) ws (cats_seq d) (votes_seq d))
              = (Failure SQLITE_CONSTRAINT,
                 mkDb (cats d) (votes d) ws (cats_seq d) (votes_seq d))).
    { intros ws. unfold delete_cats. cbn [cats votes monthly_winners].
      assert (E : existsb (fun v0 => references (cats d) (vote_cat_id v0)) (votes d)
                  = true).
      { apply existsb_exists. exists v. split; [exact Hv|]. now apply references_In. }
      now rewrite E. }
    unfold serve, exec. simpl. rewrite Hfault.
    destruct (hd false (tl faults)), (hd false (tl (tl faults)));
      destruct d as [cs vs ws cq vq];
      cbn [cats votes monthly_winners cats_seq votes_seq] in *;
      simpl; rewrite ?Hrefused; simpl; repeat split; eauto.
Qed.

End Composition.

Section SeedingCounter.
Variable integer_affinity : json -> option Z.
Variable text_affinity : json -> option string.

Local Abbreviation Serve := (serve integer_affinity text_affinity).
Local Abbreviation Loop := (run_jobs integer_affinity text_affinity).

Lemma loop_counts_inserts (items : list json) :
  forall d h,
    inserted (snd (fst (Loop [] (map insert_job items) d h)))
    = inserted h + Z.of_nat (List.length items).
Proof.
  induction items as [|c items IH]; intros d h; [simpl; lia|].
  cbn [map run_jobs insert_job job_stmt job_callback hd tl].
  unfold exec.
  destruct (insert_cat_cases text_affinity (prop "url" c) (prop "id" c) d)
    as [(u & _ & _ & ->) | [_ ->]];
    match goal with |- context [Loop [] (map insert_job items) ?d1 ?h1] =>
      specialize (IH d1 h1);
      destruct (Loop [] (map insert_job items) d1 h1) as [[d2 h2] tr]
    end; cbn [fst snd] in *; rewrite IH; cbn [count_insert inserted List.length]; lia.
Qed.

(** X7: the count that a seeding reports and the count its callbacks keep.
    For a non-empty batch without null entries the response always says
    [inserted: 0], whatever the database holds and whatever fails.  On a
    working Store the counter the callbacks increment ends at the number
    of entries of the batch, ignored ones included, while the cats table
    grows by at most that many rows. *)
Theorem seedCats_counts (faults : list bool) (body : json) (items : list json) (d : db) :
  isArray (prop "cats" body) = Some items -> items <> [] -> ~ In JNull items ->
  response_sent (Serve faults (POST_cats body) d)
  = Some (Reply 200 (success_body "inserted" (JNumber 0))) /\
  inserted (closure (Serve [] (POST_cats body) d)) = Z.of_nat (List.length items) /\
  (List.length (cats (store (Serve [] (POST_cats body) d)))
   <= List.length (cats d) + List.length items)%nat.
Proof.
  intros Harr Hne Hnn. split; [|split].
  - apply early_response; simpl route; unfold seedCats;
      rewrite Harr; (destruct items as [|c rest]; [congruence|]);
      rewrite (forEach_insert_objects (c :: rest) Hnn); cbn [threw after queued].
    + reflexivity.
    + apply Forall_forall. intros j Hj. apply in_map_iff in Hj.
      destruct Hj as (c0 & <- & _). apply insert_job_keeps_sent.
  - unfold serve. simpl route. unfold seedCats. rewrite Harr.
    destruct items as [|c rest]; [congruence|].
    rewrite (forEach_insert_objects (c :: rest) Hnn). cbn [threw after queued].
    match goal with |- context [Loop [] ?js d ?h] =>
      pose proof (loop_counts_inserts (c :: rest) d h) as K;
      destruct (Loop [] js d h) as [[d' h'] tr]
    end.
    cbn [closure fst snd] in *. rewrite K. reflexivity.
  - rewrite (seedCats_store integer_affinity text_affinity body items d Harr Hnn).
    clear Harr Hne Hnn. revert d.
    induction items as [|c items IH]; intros d; [simpl; lia|].
    change (seed_store text_affinity (c :: items) d)
      with (seed_store text_affinity items (seed_one text_affinity d c)).
    specialize (IH (seed_one text_affinity d c)).
    assert (List.length (cats (seed_one text_affinity d c))
            <= S (List.length (cats d)))%nat.
    { unfold seed_one.
      destruct (insert_cat_cases text_affinity (prop "url" c) (prop "id" c) d)
        as [(u & _ & _ & ->) | [_ ->]]; simpl; [|lia].
      rewrite length_app. simpl. lia. }
    cbn [List.length]. lia.
Qed.

End SeedingCounter.

Lemma vote_then_list_witness :
  response_sent (run [] (POST_votes (vote_body (JNumber 2) "downvote")) sample_db)
  = Some (Reply 200 (success_body "message" (JString "Vote recorded"))) /\
  exists before after,
    response_sent (run [] GET_cats sample_db)
    = Some (Reply 200
              (JArray (map (fun r => JObject [("id", JNumber (score_id r));
                                              ("image_url", JString (score_image_url r));
                                              ("upvotes", JNumber (upvotes r));
                                              ("downvotes", JNumber (downvotes r))])
                           before))) /\
    response_sent
      (run [] GET_cats
         (store (run [] (POST_votes (vote_body (JNumber 2) "downvote")) sample_db)))
    = Some (Reply 200
              (JArray (map (fun r => JObject [("id", JNumber (score_id r));
                                              ("image_url", JString (score_image_url r));
                                              ("upvotes", JNumber (upvotes r));
                                              ("downvotes", JNumber (downvotes r))])
                           after))) /\
    Permutation after (map (bump "downvote" 2) before).
Proof.
  destruct (vote_then_list sqlite_integer sqlite_text
              (vote_body (JNumber 2) "downvote") sample_db 2 "downvote")
    as (Hresp & _ & _ & Hlists).
  - exact sample_db_ids_unique.
  - reflexivity.
  - reflexivity.
  - simpl. auto.
  - reflexivity.
  - now right.
  - split; [exact Hresp | exact Hlists].
Defined.

Lemma clearAll_answers_before_deleting_witness :
  votes (store (run [true] POST_clear sample_db)) = votes sample_db /\
  cats (store (run [true] POST_clear sample_db)) = cats sample_db /\
  exists e, In (DeleteCats, Failure e) (trace (run [true] POST_clear sample_db)).
Proof.
  apply (clearAll_answers_before_deleting sqlite_integer sqlite_text [true] sample_db).
  - reflexivity.
  - exists (mkVote 1 2 "upvote"). simpl. auto.
Defined.

Lemma seedCats_rejects_invalid_witness :
  response_sent (run [true] (POST_cats (JObject [("cats", JString "c1")])) sample_db)
  = Some (Reply 400 (error_body "Invalid cats data")) /\
  store (run [] (POST_cats (cats_body [])) sample_db) = sample_db.
Proof.
  split.
  - apply (seedCats_rejects_invalid sqlite_integer sqlite_text [true]
             (JObject [("cats", JString "c1")]) sample_db).
    now left.
  - apply (seedCats_rejects_invalid sqlite_integer sqlite_text []
             (cats_body []) sample_db).
    now right.
Defined.

Lemma seedCats_null_entry_witness :
  response_sent
    (run [] (POST_cats (cats_body (entries_one ++ JNull :: entries_two))) empty_db)
  = Some Uncaught /\
  cats (store (run [] (POST_cats (cats_body (entries_one ++ JNull :: entries_two)))
                   empty_db))
  = [mkCat 1 "http://x/1.jpg" (Some "c1"); mkCat 2 "http://x/2.jpg" (Some "c2")].
Proof.
  destruct (seedCats_null_entry sqlite_integer sqlite_text []
              (cats_body (entries_one ++ JNull :: entries_two))
              entries_one entries_two empty_db eq_refl)
    as (Hresp & _ & _ & Hstore).
  - simpl. unfold cat_entry. intuition discriminate.
  - split; [exact Hresp|]. unfold run. rewrite Hstore. reflexivity.
Defined.

Lemma seedCats_counts_witness :
  response_sent (run [] (POST_cats (cats_body (entries_one ++ entries_one))) empty_db)
  = Some (Reply 200 (success_body "inserted" (JNumber 0))) /\
  inserted (closure (run [] (POST_cats (cats_body (entries_one ++ entries_one)))
                         empty_db)) = 4 /\
  (List.length
     (cats (store (run [] (POST_cats (cats_body (entries_one ++ entries_one)))
                       empty_db))) <= 0 + 4)%nat.
Proof.
  apply (seedCats_counts sqlite_integer sqlite_text []
           (cats_body (entries_one ++ entries_one)) (entries_one ++ entries_one)
           empty_db eq_refl).
  - discriminate.
  - exact no_null_entries_one.
Defined.

(** * Properties of the client *)

Module ClientFacts.
Import Client.






Lemma before_at_clean (s : string) : ~ has_at (before_at s).
Proof.
  unfold has_at. induction s as [|c s IH]; simpl; [tauto|].
  destruct (Ascii.eqb c "@") eqn:E; simpl; [tauto|].
  intros [H | H]; [|contradiction].
  subst c. discriminate.
Qed.

(** X10: the username that [setCurrentUser] gives to Sentry is the part
    of the email before its first '@': it holds no '@', the email is the
    username alone or the username, an '@' and a rest, and an email
    without '@' is its own username. *)
Theorem username_is_local_part (userId : jsval) (email : string) :
  setCurrentUser userId email
  = UserSet (Some (mkUser userId email (before_at email))) /\
  ~ has_at (before_at email) /\
  (email = before_at email \/
   exists rest, email = String.append (before_at email) (String "@" rest)) /\
  (~ has_at email <-> before_at email = email).
Proof.
  split; [reflexivity|]. split; [apply before_at_clean|]. split.
  - induction email as [|c s IH]; simpl; [now left|].
    destruct (Ascii.eqb c "@") eqn:E.
    + apply Ascii.eqb_eq in E. subst c. right. now exists s.
    + destruct IH as [IH | (rest & IH)].
      * left. now rewrite <- IH.
      * right. exists rest. simpl. now rewrite <- IH.
  - split.
    + unfold has_at. induction email as [|c s IH]; simpl; [reflexivity|].
      intros Hno. destruct (Ascii.eqb c "@") eqn:E.
      * apply Ascii.eqb_eq in E. subst c. exfalso. apply Hno. now left.
      * f_equal. apply IH. intros H. apply Hno. now right.
    + intros <-. apply before_at_clean.
Qed.

Lemma api_error_is_marked (status : Z) :
  str_includes "API Error" (template ["API Error: "; decimal_text status]) = true.
Proof. reflexivity. Qed.

(** X11: [makeRequest] returns the parsed body exactly when the response
    is ok and its body parses.  A response that is not ok makes it throw
    'API Error: ' followed by the status; a rejected fetch or an
    unparsable body makes it throw that error unchanged.  A success
    reports nothing to [captureException]; an HTTP error is reported
    once; any other error is reported once, unless its message contains
    'API Error', in which case it is not reported at all. *)
Theorem makeRequest_outcomes (method endpoint : string) (r : fetch_result) :
  fst (makeRequest method endpoint r)
  = match r with
    | Rejected m => Threw m
    | Responded false status _ => Threw (template ["API Error: "; decimal_text status])
    | Responded true _ (Parsed data) => Returned data
    | Responded true _ (Unparsable m) => Threw m
    end /\
  captures (snd (makeRequest method endpoint r))
  = match r with
    | Responded true _ (Parsed _) => 0%nat
    | Responded false _ _ => 1%nat
    | Rejected m | Responded true _ (Unparsable m) =>
        if str_includes "API Error" m then 0%nat else 1%nat
    end.
Proof.
  unfold makeRequest.
  destruct r as [m | [|] status [data | m]]; cbn [negb];
    rewrite ?api_error_is_marked; cbn [negb fst snd];
    try destruct (str_includes "API Error" m); split; reflexivity.
Qed.

End ClientFacts.

(** ** Every request is answered *)

Section Answers.
Variable integer_affinity : json -> option Z.
Variable text_affinity : json -> option string.

Local Abbreviation Serve := (serve integer_affinity text_affinity).

(** X12: every request is answered, whatever the database holds and
    whatever fails in the Store, and the status of the answer is 200, 400
    or 500. *)
Theorem every_request_is_answered (faults : list bool) (req : request) (d : db) :
  exists r,
    response_sent (Serve faults req d) = Some r /\
    (status_of r = 200 \/ status_of r = 400 \/ status_of r = 500).
Proof.
  destruct req as [|now|body|body| |].
  - unfold serve, exec. simpl. destruct (hd false faults); simpl; eauto.
  - unfold serve, exec. simpl. destruct (hd false faults); simpl; eauto.
    destruct (select_winner (currentMonth now) d); simpl; eauto.
  - unfold serve. simpl route. unfold submitVote.
    destruct (negb (truthy (prop "cat_id" body))
              || negb (truthy (prop "vote_type" body))
              || negb (includes ["upvote"; "downvote"] (prop "vote_type" body))).
    + simpl. eauto.
    + cbn [queued after threw run_jobs job_stmt job_callback]. unfold exec.
      destruct (hd false faults); [simpl; eauto|].
      destruct (insert_vote_cases integer_affinity text_affinity
                  (prop "cat_id" body) (prop "vote_type" body) d)
        as [(k & t & i & _ & _ & ->) | ->]; simpl; eauto.
  - assert (H : exists x,
               sent (if threw (seedCats body) then send Uncaught (after (seedCats body))
                     else after (seedCats body)) = Some x /\
               (status_of x = 200 \/ status_of x = 400 \/ status_of x = 500)).
    { unfold seedCats.
      destruct (isArray (prop "cats" body)) as [[|c rest]|];
        try (eexists; split; [reflexivity | simpl; auto]).
      destruct (forEach_insert (c :: rest)) as [js [|]]; simpl;
        eexists; split; try reflexivity; simpl; auto. }
    destruct H as (x & Hx & Hstatus). exists x. split; [|exact Hstatus].
    destruct (seedCats_answers_early body) as (x' & Hx' & Hk).
    apply (early_response integer_affinity text_affinity (POST_cats body) x Hx Hk).
  - eexists. split; [apply clearAll_response | simpl; auto].
  - eexists. split; [reflexivity | simpl; auto].
Qed.

End Answers.

(** ** The provider on any network *)

Lemma vote_recorded (body : json) (d : db) (k : Z) (kind : string) :
  truthy (prop "cat_id" body) = true ->
  bind_integer sqlite_integer (prop "cat_id" body) = Some k ->
  In k (ids (cats d)) ->
  prop "vote_type" body = Some (JString kind) ->
  kind = "upvote" \/ kind = "downvote" ->
  run [] (POST_votes body) d
  = mkServed
      (Some (Reply 200 (success_body "message" (JString "Vote recorded"))))
      (after_vote d k kind)
      [(InsertVote (prop "cat_id" body) (prop "vote_type" body), RunOk)]
      (mkH 0 (Some (Reply 200 (success_body "message" (JString "Vote recorded")))) []).
Proof.
  intros Hcat Hk Hin Hvote Hkind.
  assert (Hguard : negb (truthy (prop "cat_id" body))
                   || negb (truthy (prop "vote_type" body))
                   || negb (includes ["upvote"; "downvote"] (prop "vote_type" body))
                   = false).
  { rewrite Hcat, Hvote. destruct Hkind as [-> | ->]; reflexivity. }
  unfold run, serve. simpl route. unfold submitVote. rewrite Hguard.
  cbn [queued after threw run_jobs job_stmt job_callback hd tl].
  unfold exec, insert_vote. rewrite Hk, Hvote. cbn [bind_text].
  rewrite (proj2 (references_In (cats d) k) Hin). reflexivity.
Qed.

Lemma select_cats_empty (d : db) : cats d = [] -> select_cats d = [].
Proof. intros H. unfold select_cats. now rewrite H. Qed.

Lemma select_cats_not_empty (d : db) :
  unique_ids d -> cats d <> [] -> select_cats d <> [].
Proof.
  intros Hids Hne Hnil. rewrite select_cats_rows in Hnil by assumption.
  pose proof (order_by_perm _ (fun x y => upvotes y <=? upvotes x)
                (map (expected_score (votes d)) (cats d))) as Hp.
  rewrite Hnil in Hp. apply Permutation_nil in Hp.
  destruct (cats d); [congruence | discriminate].
Qed.

Module ProviderFacts.
Import Client.

Section OnAnyNetwork.
Variable world : Type.
Variable fetch : world -> call -> world * fetch_result.
Variable api_url : string.
Variable null_message : string.

Local Abbreviation Env := (env world).
Local Abbreviation Request := (request world fetch api_url).
Local Abbreviation FetchCats := (fetchCats world fetch api_url null_message).
Local Abbreviation FetchWinner := (fetchWinner world fetch api_url).
Local Abbreviation SubmitVote := (submitVote world fetch api_url null_message).
Local Abbreviation LoginUser := (loginUser world fetch api_url null_message).
Local Abbreviation RegisterUser := (registerUser world fetch api_url null_message).
Local Abbreviation ApiCall := (api_call api_url).

(** A request makes one call and hands on what [makeRequest] makes of
    the answer. *)
Lemma request_run (method endpoint : string) (body : option json) (e : Env) :
  Request method endpoint body e
  = (mkEnv world
       (fst (fetch (env_world world e) (ApiCall method endpoint body)))
       (env_ui world e)
       (env_events world e
        ++ snd (makeRequest method endpoint
                  (snd (fetch (env_world world e) (ApiCall method endpoint body)))))
       (env_calls world e ++ [ApiCall method endpoint body]),
     fst (makeRequest method endpoint
            (snd (fetch (env_world world e) (ApiCall method endpoint body))))).
Proof.
  unfold request, bind, send_request, emit, ret, throw, api_call.
  destruct (fetch (env_world world e)
              (mkCall method (String.append api_url endpoint) body)) as [w r].
  simpl. destruct (fst (makeRequest method endpoint r)); reflexivity.
Qed.

Ltac run_request :=
  match goal with
  | |- context [request world fetch api_url ?m ?ep ?b ?e] =>
      rewrite (request_run m ep b e);
      cbn [fst snd env_world env_ui env_events env_calls]
  end.

Ltac case_outcome :=
  match goal with
  | |- context [match fst (makeRequest ?m ?ep ?r) with _ => _ end] =>
      let E := fresh "E" in destruct (fst (makeRequest m ep r)) eqn:E
  end.

Ltac leaf :=
  cbn; repeat split; auto;
  eexists; rewrite <- ?app_assoc; cbn [app];
  (split; [reflexivity|]); (split; [cbn; lia|]);
  first [ intros H; exfalso; apply H; reflexivity | intros _; eauto ].

Lemma fetchCats_run (e : Env) :
  snd (FetchCats e) = Returned tt /\
  ui_loading (env_ui world (fst (FetchCats e))) = false /\
  ui_winner (env_ui world (fst (FetchCats e))) = ui_winner (env_ui world e) /\
  (ui_error (env_ui world (fst (FetchCats e))) = None \/
   ui_cats (env_ui world (fst (FetchCats e))) = ui_cats (env_ui world e) \/
   (ui_cats (env_ui world (fst (FetchCats e))) = JNull /\
    ui_error (env_ui world (fst (FetchCats e))) = Some null_message)) /\
  exists more,
    env_calls world (fst (FetchCats e))
    = env_calls world e ++ ApiCall "GET" "/api/cats" None :: more /\
    (List.length more <= 3)%nat /\
    (more <> [] ->
     exists data,
       fst (makeRequest "GET" "/api/cats"
              (snd (fetch (env_world world e) (ApiCall "GET" "/api/cats" None))))
       = Returned data /\
       length_is_zero data = Some true).
Proof.
  unfold fetchCats, finally, try_catch, bind, setLoading, setError, setCats,
    set_ui, api_get, api_post, read_length, ret, throw.
  run_request. case_outcome; [|leaf].
  match goal with
  | |- context [length_is_zero ?a] => destruct (length_is_zero a) as [[|]|] eqn:Ez
  end; [|leaf|leaf].
  unfold send_request. cbn [env_world env_ui env_events env_calls].
  destruct (fetch _ (mkCall "GET" external_url None))
    as [w2 [m2 | ok2 st2 [new | m2]]];
    cbn [fst snd env_world env_ui env_events env_calls]; [leaf| |leaf].
  run_request. case_outcome; [|leaf].
  run_request. case_outcome; [|leaf].
  match goal with
  | |- context [match ?a with JNull => _ | _ => _ end] => destruct a
  end; leaf.
Qed.

(** X13: [fetchCats] never throws and always ends with [loading] false;
    it never touches the winner.  It ends without an error, or with the
    list of cats it started from, or, when the list read after a seeding
    is null, with the cats set to null and the error of reading its
    length.  Its first call is [GET /api/cats]; it makes at most three
    more, and makes any only when that first answer has length zero. *)
Theorem fetchCats_settles (e : Env) :
  snd (FetchCats e) = Returned tt /\
  ui_loading (env_ui world (fst (FetchCats e))) = false /\
  ui_winner (env_ui world (fst (FetchCats e))) = ui_winner (env_ui world e) /\
  (ui_error (env_ui world (fst (FetchCats e))) = None \/
   ui_cats (env_ui world (fst (FetchCats e))) = ui_cats (env_ui world e) \/
   (ui_cats (env_ui world (fst (FetchCats e))) = JNull /\
    ui_error (env_ui world (fst (FetchCats e))) = Some null_message)) /\
  exists more,
    env_calls world (fst (FetchCats e))
    = env_calls world e ++ ApiCall "GET" "/api/cats" None :: more /\
    (List.length more <= 3)%nat /\
    (more <> [] ->
     exists data,
       fst (makeRequest "GET" "/api/cats"
              (snd (fetch (env_world world e) (ApiCall "GET" "/api/cats" None))))
       = Returned data /\
       length_is_zero data = Some true).
Proof. exact (fetchCats_run e). Qed.

(** X17: first start.  When the first [GET /api/cats] answers a list of
    length zero, the cat image source answers a body, and the seeding
    POST and the second GET succeed, [fetchCats] makes these four calls
    in this order, posts to [/api/cats] what the source answered, and
    ends showing what the second GET answered, whatever the backend had
    inserted by then, with [loading] false; there is no error unless
    that answer is null, whose length cannot be read. *)
Theorem cold_start (e : Env) (w1 w2 w3 w4 : world) (s1 s3 s4 status : Z) (ok : bool)
    (data newCats posted updated : json) :
  fetch (env_world world e) (ApiCall "GET" "/api/cats" None)
  = (w1, Responded true s1 (Parsed data)) ->
  length_is_zero data = Some true ->
  fetch w1 (mkCall "GET" external_url None)
  = (w2, Responded ok status (Parsed newCats)) ->
  fetch w2 (ApiCall "POST" "/api/cats" (Some (JObject [("cats", newCats)])))
  = (w3, Responded true s3 (Parsed posted)) ->
  fetch w3 (ApiCall "GET" "/api/cats" None)
  = (w4, Responded true s4 (Parsed updated)) ->
  exists added,
    FetchCats e
    = (mkEnv world w4
         (mkUi updated (ui_winner (env_ui world e)) false
               (match updated with
                | JNull => Some null_message
                | _ => None
                end))
         (env_events world e ++ added)
         (env_calls world e
          ++ [ApiCall "GET" "/api/cats" None;
              mkCall "GET" external_url None;
              ApiCall "POST" "/api/cats" (Some (JObject [("cats", newCats)]));
              ApiCall "GET" "/api/cats" None]),
       Returned tt).
Proof.
  intros H1 Hzero H2 H3 H4.
  unfold fetchCats, finally, try_catch, bind, setLoading, setError, setCats,
    set_ui, api_get, api_post, read_length, ret, throw.
  run_request. rewrite H1. cbn [fst snd makeRequest negb]. rewrite Hzero.
  unfold send_request. cbn [env_world env_ui env_events env_calls].
  rewrite H2.
  run_request. rewrite H3. cbn [fst snd makeRequest negb].
  run_request. rewrite H4. cbn [fst snd makeRequest negb].
  destruct updated;
    cbn [fst snd env_world env_ui env_events env_calls
         ui_winner ui_cats ui_loading ui_error];
    eexists; rewrite <- ?app_assoc; cbn [app]; reflexivity.
Qed.

Lemma fetchWinner_returns (e : Env) : snd (FetchWinner e) = Returned tt.
Proof.
  unfold fetchWinner, try_catch, bind, setWinner, set_ui, api_get, ret.
  run_request. case_outcome; reflexivity.
Qed.

(** X14: [fetchWinner] fails soft.  It never throws and makes exactly
    one call; cats, loading and error stay as they are; the winner becomes
    the answer when there is one and stays as it is when the request
    fails. *)
Theorem fetchWinner_fails_soft (e : Env) :
  snd (FetchWinner e) = Returned tt /\
  ui_cats (env_ui world (fst (FetchWinner e))) = ui_cats (env_ui world e) /\
  ui_loading (env_ui world (fst (FetchWinner e))) = ui_loading (env_ui world e) /\
  ui_error (env_ui world (fst (FetchWinner e))) = ui_error (env_ui world e) /\
  env_calls world (fst (FetchWinner e))
  = env_calls world e ++ [ApiCall "GET" "/api/winner" None] /\
  ui_winner (env_ui world (fst (FetchWinner e)))
  = match fst (makeRequest "GET" "/api/winner"
                 (snd (fetch (env_world world e) (ApiCall "GET" "/api/winner" None))))
    with
    | Returned data => data
    | Threw _ => ui_winner (env_ui world e)
    end.
Proof.
  unfold fetchWinner, try_catch, bind, setWinner, set_ui, api_get, ret.
  run_request. case_outcome; cbn; repeat split; auto.
Qed.

(** X15: [submitVote] never throws.  When the POST fails, its message
    becomes the error, nothing else of the state changes and no other
    call is made; when it succeeds, the state is the one that [fetchCats]
    and then [fetchWinner] leave. *)
Theorem submitVote_refreshes (catId : Z) (voteType : string) (e : Env) :
  snd (SubmitVote catId voteType e) = Returned tt /\
  match fst (makeRequest "POST" "/api/votes"
               (snd (fetch (env_world world e)
                       (ApiCall "POST" "/api/votes"
                          (Some (JObject [("cat_id", JNumber catId);
                                          ("vote_type", JString voteType)]))))))
  with
  | Threw message =>
      env_ui world (fst (SubmitVote catId voteType e))
      = mkUi (ui_cats (env_ui world e)) (ui_winner (env_ui world e))
             (ui_loading (env_ui world e)) (Some message) /\
      env_calls world (fst (SubmitVote catId voteType e))
      = env_calls world e
        ++ [ApiCall "POST" "/api/votes"
              (Some (JObject [("cat_id", JNumber catId);
                              ("vote_type", JString voteType)]))]
  | Returned _ =>
      fst (SubmitVote catId voteType e)
      = fst (FetchWinner
               (fst (FetchCats
                       (fst (Request "POST" "/api/votes"
                               (Some (JObject [("cat_id", JNumber catId);
                                               ("vote_type", JString voteType)]))
                               e)))))
  end.
Proof.
  unfold submitVote, try_catch, bind, api_post.
  rewrite (request_run "POST" "/api/votes" _ e).
  cbn [fst snd].
  case_outcome.
  - match goal with
    | |- context [fetchCats world fetch api_url null_message ?x] =>
        pose proof (proj1 (fetchCats_run x)) as Hc;
        destruct (fetchCats world fetch api_url null_message x) as [e1 o1]
    end.
    cbn [fst snd] in *. subst o1.
    pose proof (fetchWinner_returns e1) as Hw.
    destruct (FetchWinner e1) as [e2 o2]. cbn [fst snd] in *. subst o2.
    split; reflexivity.
  - cbn. repeat split; auto.
Qed.

Lemma makeRequest_sets_no_user (method endpoint : string) (r : fetch_result) :
  filter is_user_set (snd (makeRequest method endpoint r)) = [].
Proof.
  unfold makeRequest.
  destruct r as [m | [|] status [data | m]]; cbn [negb];
    rewrite ?ClientFacts.api_error_is_marked; cbn [negb fst snd];
    try destruct (str_includes "API Error" m); reflexivity.
Qed.

Lemma captures_app (l1 l2 : list sentry_event) :
  captures (l1 ++ l2) = (captures l1 + captures l2)%nat.
Proof. unfold captures. now rewrite filter_app, length_app. Qed.

(** X16: [loginUser] sets the Sentry user exactly when the request
    succeeds with a body that is not null, to the [userId] of the body,
    the email and its local part, and then returns the body.  When the
    request fails it rethrows the error, sets no user and reports the
    error to [captureException] once more than [makeRequest] did.  It
    never changes the state of the provider. *)
Theorem loginUser_user_context (email password : string) (e : Env) :
  exists added,
    env_events world (fst (LoginUser email password e)) = env_events world e ++ added /\
    env_ui world (fst (LoginUser email password e)) = env_ui world e /\
    match fst (makeRequest "POST" "/api/auth/login"
                 (snd (fetch (env_world world e)
                         (ApiCall "POST" "/api/auth/login"
                            (Some (JObject [("email", JString email);
                                            ("password", JString password)]))))))
    with
    | Returned JNull =>
        snd (LoginUser email password e) = Threw null_message /\
        filter is_user_set added = []
    | Returned response =>
        snd (LoginUser email password e) = Returned response /\
        filter is_user_set added = [setCurrentUser (prop "userId" response) email]
    | Threw message =>
        snd (LoginUser email password e) = Threw message /\
        filter is_user_set added = [] /\
        captures added
        = S (captures
               (snd (makeRequest "POST" "/api/auth/login"
                       (snd (fetch (env_world world e)
                               (ApiCall "POST" "/api/auth/login"
                                  (Some (JObject [("email", JString email);
                                                  ("password", JString password)]))))))))
    end.
Proof.
  unfold loginUser, try_catch, bind, emit, api_post, destructure, ret, throw.
  cbn [env_world env_ui env_events env_calls].
  run_request.
  set (evs := snd (makeRequest "POST" "/api/auth/login" _)).
  pose proof (makeRequest_sets_no_user "POST" "/api/auth/login"
                (snd (fetch (env_world world e)
                        (ApiCall "POST" "/api/auth/login"
                           (Some (JObject [("email", JString email);
                                           ("password", JString password)])))))) as Hno.
  fold evs in Hno.
  case_outcome.
  - match goal with |- context [match ?a with JNull => _ | _ => _ end] => destruct a end;
      cbn [fst snd env_world env_ui env_events env_calls];
      eexists; (split; [rewrite <- ?app_assoc; reflexivity|]); (split; [reflexivity|]);
      (split; [reflexivity|]);
      rewrite ?filter_app, Hno; reflexivity.
  - cbn [fst snd env_world env_ui env_events env_calls].
    eexists. split; [rewrite <- ?app_assoc; reflexivity|]. split; [reflexivity|].
    split; [reflexivity|]. split.
    + rewrite !filter_app, Hno. reflexivity.
    + rewrite !captures_app. cbn. lia.
Qed.

(** X23: [registerUser] sets the Sentry user exactly when the request
    succeeds with a body that is not null, to the [userId] of the body,
    the email and its local part, and then returns the body.  When the
    request fails it rethrows the error, sets no user and reports the
    error to [captureException] once more than [makeRequest] did.  It
    never changes the state of the provider: a registration that succeeds
    logs the user in. *)
Theorem registerUser_user_context (email password : string) (e : Env) :
  exists added,
    env_events world (fst (RegisterUser email password e)) = env_events world e ++ added /\
    env_ui world (fst (RegisterUser email password e)) = env_ui world e /\
    match fst (makeRequest "POST" "/api/auth/register"
                 (snd (fetch (env_world world e)
                         (ApiCall "POST" "/api/auth/register"
                            (Some (JObject [("email", JString email);
                                            ("password", JString password)]))))))
    with
    | Returned JNull =>
        snd (RegisterUser email password e) = Threw null_message /\
        filter is_user_set added = []
    | Returned response =>
        snd (RegisterUser email password e) = Returned response /\
        filter is_user_set added = [setCurrentUser (prop "userId" response) email]
    | Threw message =>
        snd (RegisterUser email password e) = Threw message /\
        filter is_user_set added = [] /\
        captures added
        = S (captures
               (snd (makeRequest "POST" "/api/auth/register"
                       (snd (fetch (env_world world e)
                               (ApiCall "POST" "/api/auth/register"
                                  (Some (JObject [("email", JString email);
                                                  ("password", JString password)]))))))))
    end.
Proof.
  unfold registerUser, try_catch, bind, emit, api_post, destructure, ret, throw.
  cbn [env_world env_ui env_events env_calls].
  run_request.
  set (evs := snd (makeRequest "POST" "/api/auth/register" _)).
  pose proof (makeRequest_sets_no_user "POST" "/api/auth/register"
                (snd (fetch (env_world world e)
                        (ApiCall "POST" "/api/auth/register"
                           (Some (JObject [("email", JString email);
                                           ("password", JString password)])))))) as Hno.
  fold evs in Hno.
  case_outcome.
  - match goal with |- context [match ?a with JNull => _ | _ => _ end] => destruct a end;
      cbn [fst snd env_world env_ui env_events env_calls];
      eexists; (split; [rewrite <- ?app_assoc; reflexivity|]); (split; [reflexivity|]);
      (split; [reflexivity|]);
      rewrite ?filter_app, Hno; reflexivity.
  - cbn [fst snd env_world env_ui env_events env_calls].
    eexists. split; [rewrite <- ?app_assoc; reflexivity|]. split; [reflexivity|].
    split; [reflexivity|]. split.
    + rewrite !filter_app, Hno. reflexivity.
    + rewrite !captures_app. cbn. lia.
Qed.

End OnAnyNetwork.

Lemma cold_start_witness :
  exists added,
    fetchCats (list fetch_result) scripted backend_url
      "Cannot read properties of null (reading 'length')"
      (mkEnv _
         [Responded true 200 (Parsed (JArray []));
          Responded true 200 (Parsed (JArray entries_one));
          Responded true 200 (Parsed (success_body "inserted" (JNumber 0)));
          Responded true 200 (Parsed (list_json sample_db))]
         initial_ui [] [])
    = (mkEnv _ []
         (mkUi (list_json sample_db) (ui_winner initial_ui) false None)
         ([] ++ added)
         ([] ++ [cats_call; external_call; seed_call (JArray entries_one); cats_call]),
       Returned tt).
Proof.
  apply (cold_start (list fetch_result) scripted backend_url
           "Cannot read properties of null (reading 'length')"
           (mkEnv _
              [Responded true 200 (Parsed (JArray []));
               Responded true 200 (Parsed (JArray entries_one));
               Responded true 200 (Parsed (success_body "inserted" (JNumber 0)));
               Responded true 200 (Parsed (list_json sample_db))]
              initial_ui [] [])
           [Responded true 200 (Parsed (JArray entries_one));
            Responded true 200 (Parsed (success_body "inserted" (JNumber 0)));
            Responded true 200 (Parsed (list_json sample_db))]
           [Responded true 200 (Parsed (success_body "inserted" (JNumber 0)));
            Responded true 200 (Parsed (list_json sample_db))]
           [Responded true 200 (Parsed (list_json sample_db))]
           []
           200 200 200 200 true
           (JArray []) (JArray entries_one) (success_body "inserted" (JNumber 0))
           (list_json sample_db));
    reflexivity.
Defined.

End ProviderFacts.

(** ** The provider against this backend *)

Ltac api_step :=
  rewrite ProviderFacts.request_run; unfold Client.api_call;
  cbn [Client.env_world Client.env_ui Client.env_events Client.env_calls].

Ltac settle :=
  cbn [fst snd Client.env_world Client.env_ui Client.env_events Client.env_calls
       served_db clock cat_api
       Client.ui_winner Client.ui_cats Client.ui_loading Client.ui_error];
  eexists; rewrite <- ?app_assoc; cbn [app]; reflexivity.

Section EndToEnd.
Variable not_json : string.
Variable null_message : string.

Local Abbreviation Fetch := (backend_fetch not_json).
Local Abbreviation FetchCats :=
  (Client.fetchCats deployment (backend_fetch not_json) backend_url null_message).
Local Abbreviation SubmitVote :=
  (Client.submitVote deployment (backend_fetch not_json) backend_url null_message).
Local Abbreviation LoginUser :=
  (Client.loginUser deployment (backend_fetch not_json) backend_url null_message).
Local Abbreviation RegisterUser :=
  (Client.registerUser deployment (backend_fetch not_json) backend_url null_message).

Lemma backend_get_cats (w : deployment) :
  Fetch w cats_call
  = (w, Client.Responded true 200 (Client.Parsed (list_json (served_db w)))).
Proof. destruct w as [d now ext]. reflexivity. Qed.

Lemma backend_external (w : deployment) : Fetch w external_call = (w, cat_api w).
Proof. reflexivity. Qed.

Lemma backend_post_cats_invalid (w : deployment) (newCats : json) :
  isArray (Some newCats) = None \/ isArray (Some newCats) = Some [] ->
  Fetch w (seed_call newCats)
  = (w, Client.Responded false 400 (Client.Parsed (error_body "Invalid cats data"))).
Proof.
  intros Hbad. destruct w as [d now ext].
  unfold backend_fetch, seed_call, dispatch, at_route, request_body, run, serve.
  cbn [Client.call_url Client.call_method Client.call_body].
  change (String.eqb (String.append backend_url "/api/cats") Client.external_url)
    with false.
  change (String.eqb "POST" "GET") with false.
  change (String.eqb "POST" "POST") with true.
  change (String.eqb (String.append backend_url "/api/cats")
            (String.append backend_url "/api/votes")) with false.
  rewrite String.eqb_refl. cbn [andb served_db clock cat_api route].
  unfold seedCats.
  change (prop "cats" (JObject [("cats", newCats)])) with (Some newCats).
  destruct Hbad as [-> | ->]; reflexivity.
Qed.

Lemma backend_get_winner (w : deployment) :
  Fetch w winner_call
  = (w, Client.Responded true 200
          (Client.Parsed (winner_json (served_db w) (clock w)))).
Proof.
  destruct w as [d now ext]. unfold backend_fetch, winner_json, winner_call.
  cbn [Client.call_url Client.call_method Client.call_body served_db clock cat_api].
  change (String.eqb (String.append backend_url "/api/winner") Client.external_url)
    with false.
  unfold dispatch, at_route.
  cbn [Client.call_url Client.call_method Client.call_body].
  change (String.eqb (String.append backend_url "/api/winner")
            (String.append backend_url "/api/cats")) with false.
  rewrite !String.eqb_refl. cbn [andb]. unfold run.
  destruct (getCurrentWinner_response sqlite_integer sqlite_text d now) as [-> ->].
  destruct (select_winner (currentMonth now) d); reflexivity.
Qed.

Lemma backend_vote_recorded (w : deployment) (k : Z) (kind : string) :
  k <> 0 -> In k (ids (cats (served_db w))) ->
  kind = "upvote" \/ kind = "downvote" ->
  Fetch w (vote_call k kind)
  = (mkDeployment (after_vote (served_db w) k kind) (clock w) (cat_api w),
     Client.Responded true 200
       (Client.Parsed (success_body "message" (JString "Vote recorded")))).
Proof.
  intros Hk Hin Hkind. destruct w as [d now ext]. unfold backend_fetch, vote_call.
  cbn [Client.call_url Client.call_method Client.call_body served_db clock cat_api].
  change (String.eqb (String.append backend_url "/api/votes") Client.external_url)
    with false.
  unfold dispatch, at_route, request_body.
  cbn [Client.call_url Client.call_method Client.call_body].
  change (String.eqb "POST" "GET") with false.
  rewrite !String.eqb_refl. cbn [andb].
  rewrite (vote_recorded _ d k kind); auto.
  simpl. apply Z.eqb_neq in Hk. now rewrite Hk.
Qed.

Lemma backend_vote_refused (w : deployment) (k : Z) (kind : string) :
  k <> 0 -> ~ In k (ids (cats (served_db w))) ->
  kind = "upvote" \/ kind = "downvote" ->
  Fetch w (vote_call k kind)
  = (w, Client.Responded false 500 (Client.Parsed (error_body "Failed to add vote"))).
Proof.
  intros Hk Hin Hkind. destruct w as [d now ext]. unfold backend_fetch, vote_call.
  cbn [Client.call_url Client.call_method Client.call_body served_db clock cat_api] in *.
  change (String.eqb (String.append backend_url "/api/votes") Client.external_url)
    with false.
  unfold dispatch, at_route, request_body.
  cbn [Client.call_url Client.call_method Client.call_body].
  change (String.eqb "POST" "GET") with false.
  rewrite !String.eqb_refl. cbn [andb].
  unfold run, serve. simpl route. unfold submitVote.
  assert (Hguard : negb (truthy (prop "cat_id"
                                   (JObject [("cat_id", JNumber k);
                                             ("vote_type", JString kind)])))
                   || negb (truthy (prop "vote_type"
                                      (JObject [("cat_id", JNumber k);
                                                ("vote_type", JString kind)])))
                   || negb (includes ["upvote"; "downvote"]
                              (prop "vote_type"
                                 (JObject [("cat_id", JNumber k);
                                           ("vote_type", JString kind)])))
                   = false).
  { simpl. apply Z.eqb_neq in Hk. rewrite Hk.
    destruct Hkind as [-> | ->]; reflexivity. }
  rewrite Hguard.
  cbn [queued after threw run_jobs job_stmt job_callback hd tl].
  unfold exec.
  destruct (insert_vote_cases sqlite_integer sqlite_text
              (prop "cat_id" (JObject [("cat_id", JNumber k); ("vote_type", JString kind)]))
              (prop "vote_type" (JObject [("cat_id", JNumber k); ("vote_type", JString kind)]))
              d)
    as [(k' & t & i & Hk' & Hin' & _) | ->].
  - simpl in Hk'. injection Hk' as <-. contradiction.
  - reflexivity.
Qed.

Lemma backend_has_no_auth (w : deployment) (email password : string) :
  Fetch w (auth_call "/api/auth/login" email password)
  = (w, Client.Responded false 404 (Client.Unparsable not_json)) /\
  Fetch w (auth_call "/api/auth/register" email password)
  = (w, Client.Responded false 404 (Client.Unparsable not_json)).
Proof. destruct w as [d now ext]. split; reflexivity. Qed.

(** X18: first start without cats to seed.  Against a backend without
    cats, when the cat image source answers with something that is not a
    non-empty array, the seeding request is refused with 400:
    [fetchCats] stops after three calls with the error
    [API Error: 400], the cats shown stay as they were, the backend is
    unchanged and [loading] ends false. *)
Theorem cold_start_without_cats (w : deployment) (u : Client.ui)
    (events : list Client.sentry_event) (calls : list Client.call)
    (newCats : json) (ok : bool) (status : Z) :
  cats (served_db w) = [] ->
  cat_api w = Client.Responded ok status (Client.Parsed newCats) ->
  isArray (Some newCats) = None \/ isArray (Some newCats) = Some [] ->
  exists added,
    FetchCats (Client.mkEnv _ w u events calls)
    = (Client.mkEnv _ w
         (Client.mkUi (Client.ui_cats u) (Client.ui_winner u) false
                      (Some "API Error: 400"))
         (events ++ added)
         (calls ++ [cats_call; external_call; seed_call newCats]),
       Client.Returned tt).
Proof.
  intros Hempty Hext Hbad.
  unfold Client.fetchCats, Client.finally, Client.try_catch, Client.bind,
    Client.setLoading, Client.setError, Client.setCats,
    Client.set_ui, Client.api_get, Client.api_post, Client.ret, Client.throw.
  api_step. fold cats_call. rewrite backend_get_cats.
  cbn [fst snd Client.makeRequest negb].
  unfold list_json at 1. rewrite (select_cats_empty _ Hempty).
  cbn [map Client.length_is_zero].
  unfold Client.send_request.
  cbn [Client.env_world Client.env_ui Client.env_events Client.env_calls].
  fold external_call. rewrite backend_external, Hext.
  api_step. fold (seed_call newCats).
  rewrite (backend_post_cats_invalid w newCats Hbad).
  cbn [fst snd Client.makeRequest negb].
  change (Client.str_includes "API Error"
            (Client.template ["API Error: "; decimal_text 400])) with true.
  cbn [negb].
  change (Client.template ["API Error: "; decimal_text 400]) with "API Error: 400".
  settle.
Qed.

Lemma fetchCats_warm (w : deployment) (u : Client.ui)
    (events : list Client.sentry_event) (calls : list Client.call) :
  unique_ids (served_db w) -> cats (served_db w) <> [] ->
  exists added,
    FetchCats (Client.mkEnv _ w u events calls)
    = (Client.mkEnv _ w
         (Client.mkUi (list_json (served_db w)) (Client.ui_winner u) false None)
         (events ++ added)
         (calls ++ [cats_call]),
       Client.Returned tt).
Proof.
  intros Hids Hne.
  unfold Client.fetchCats, Client.finally, Client.try_catch, Client.bind,
    Client.setLoading, Client.setError, Client.setCats,
    Client.set_ui, Client.api_get, Client.api_post, Client.ret, Client.throw.
  api_step. fold cats_call. rewrite backend_get_cats.
  cbn [fst snd Client.makeRequest negb].
  assert (Hz : Client.length_is_zero (list_json (served_db w)) = Some false).
  { unfold list_json. pose proof (select_cats_not_empty _ Hids Hne) as Hrows.
    destruct (select_cats (served_db w)); [congruence | reflexivity]. }
  rewrite Hz. settle.
Qed.

(** X19: later starts.  Against a backend that has cats, [fetchCats]
    makes the one call [GET /api/cats], never asks the cat image source
    and never seeds; it shows the list the backend serves, clears the
    error and leaves the backend as it is. *)
Theorem warm_start (w : deployment) (u : Client.ui)
    (events : list Client.sentry_event) (calls : list Client.call) :
  unique_ids (served_db w) -> cats (served_db w) <> [] ->
  exists added,
    FetchCats (Client.mkEnv _ w u events calls)
    = (Client.mkEnv _ w
         (Client.mkUi (list_json (served_db w)) (Client.ui_winner u) false None)
         (events ++ added)
         (calls ++ [cats_call]),
       Client.Returned tt).
Proof. exact (fetchCats_warm w u events calls). Qed.

(** X20: a vote end to end.  For a cat of the backend and a valid vote
    type, [submitVote] makes three calls (vote, list, winner); the
    backend ends with exactly that one vote more, and the provider shows
    the list and the winner that the backend serves after the vote, with
    no error. *)
Theorem vote_end_to_end (w : deployment) (u : Client.ui)
    (events : list Client.sentry_event) (calls : list Client.call)
    (k : Z) (kind : string) :
  unique_ids (served_db w) ->
  k <> 0 -> In k (ids (cats (served_db w))) ->
  kind = "upvote" \/ kind = "downvote" ->
  exists added,
    SubmitVote k kind (Client.mkEnv _ w u events calls)
    = (Client.mkEnv _
         (mkDeployment (after_vote (served_db w) k kind) (clock w) (cat_api w))
         (Client.mkUi (list_json (after_vote (served_db w) k kind))
                      (winner_json (after_vote (served_db w) k kind) (clock w))
                      false None)
         (events ++ added)
         (calls ++ [vote_call k kind; cats_call; winner_call]),
       Client.Returned tt).
Proof.
  intros Hids Hk Hin Hkind.
  unfold Client.submitVote, Client.try_catch, Client.bind, Client.api_post.
  api_step. fold (vote_call k kind).
  rewrite (backend_vote_recorded w k kind Hk Hin Hkind).
  cbn [fst snd Client.makeRequest negb].
  match goal with
  | |- context [Client.fetchCats _ _ _ _ (Client.mkEnv _ ?w1 ?u1 ?ev1 ?cs1)] =>
      destruct (fetchCats_warm w1 u1 ev1 cs1) as [added1 ->]
  end.
  - exact Hids.
  - cbn [served_db after_vote cats]. intros Hnil. rewrite Hnil in Hin. destruct Hin.
  - unfold Client.fetchWinner, Client.try_catch, Client.bind, Client.api_get,
      Client.setWinner, Client.set_ui, Client.ret.
    api_step. fold winner_call. rewrite backend_get_winner.
    cbn [fst snd Client.makeRequest negb].
    settle.
Qed.

(** X21: a vote for a cat the backend does not have.  The backend
    refuses the insert with 500 and keeps its database; [submitVote]
    makes no further call, sets the error [API Error: 500], leaves cats,
    winner and loading as they are, and does not throw. *)
Theorem vote_refused_end_to_end (w : deployment) (u : Client.ui)
    (events : list Client.sentry_event) (calls : list Client.call)
    (k : Z) (kind : string) :
  k <> 0 -> ~ In k (ids (cats (served_db w))) ->
  kind = "upvote" \/ kind = "downvote" ->
  exists added,
    SubmitVote k kind (Client.mkEnv _ w u events calls)
    = (Client.mkEnv _ w
         (Client.mkUi (Client.ui_cats u) (Client.ui_winner u) (Client.ui_loading u)
                      (Some "API Error: 500"))
         (events ++ added)
         (calls ++ [vote_call k kind]),
       Client.Returned tt).
Proof.
  intros Hk Hin Hkind.
  unfold Client.submitVote, Client.try_catch, Client.bind, Client.api_post.
  api_step. fold (vote_call k kind).
  rewrite (backend_vote_refused w k kind Hk Hin Hkind).
  cbn [fst snd Client.makeRequest negb].
  change (Client.str_includes "API Error"
            (Client.template ["API Error: "; decimal_text 500])) with true.
  cbn [negb].
  change (Client.template ["API Error: "; decimal_text 500]) with "API Error: 500".
  unfold Client.setError, Client.set_ui.
  settle.
Qed.

(** X22: the backend has no route under [/api/auth].  Against it,
    [loginUser] and [registerUser] always throw [API Error: 404] after
    one call, never set the Sentry user, change neither the provider
    state nor the backend, and report the error to [captureException]
    twice (once in [makeRequest], once in their own handler). *)
Theorem auth_always_fails (w : deployment) (u : Client.ui)
    (events : list Client.sentry_event) (calls : list Client.call)
    (email password : string) :
  (exists added,
     LoginUser email password (Client.mkEnv _ w u events calls)
     = (Client.mkEnv _ w u (events ++ added)
          (calls ++ [auth_call "/api/auth/login" email password]),
        Client.Threw "API Error: 404") /\
     filter is_user_set added = [] /\ captures added = 2%nat) /\
  (exists added,
     RegisterUser email password (Client.mkEnv _ w u events calls)
     = (Client.mkEnv _ w u (events ++ added)
          (calls ++ [auth_call "/api/auth/register" email password]),
        Client.Threw "API Error: 404") /\
     filter is_user_set added = [] /\ captures added = 2%nat).
Proof.
  destruct (backend_has_no_auth w email password) as [Hlogin Hregister].
  split.
  - unfold Client.loginUser, Client.try_catch, Client.bind, Client.emit,
      Client.api_post, Client.destructure, Client.ret, Client.throw.
    cbn [Client.env_world Client.env_ui Client.env_events Client.env_calls].
    api_step. fold (auth_call "/api/auth/login" email password).
    rewrite Hlogin. cbn [fst snd Client.makeRequest negb].
    change (Client.str_includes "API Error"
              (Client.template ["API Error: "; decimal_text 404])) with true.
    cbn [negb].
    change (Client.template ["API Error: "; decimal_text 404]) with "API Error: 404".
    cbn [fst snd Client.env_world Client.env_ui Client.env_events Client.env_calls].
    eexists. split; [rewrite <- ?app_assoc; cbn [app]; reflexivity|].
    split; reflexivity.
  - unfold Client.registerUser, Client.try_catch, Client.bind, Client.emit,
      Client.api_post, Client.destructure, Client.ret, Client.throw.
    cbn [Client.env_world Client.env_ui Client.env_events Client.env_calls].
    api_step. fold (auth_call "/api/auth/register" email password).
    rewrite Hregister. cbn [fst snd Client.makeRequest negb].
    change (Client.str_includes "API Error"
              (Client.template ["API Error: "; decimal_text 404])) with true.
    cbn [negb].
    change (Client.template ["API Error: "; decimal_text 404]) with "API Error: 404".
    cbn [fst snd Client.env_world Client.env_ui Client.env_events Client.env_calls].
    eexists. split; [rewrite <- ?app_assoc; cbn [app]; reflexivity|].
    split; reflexivity.
Qed.

End EndToEnd.

Lemma cold_start_without_cats_witness :
  exists added,
    Client.fetchCats deployment (backend_fetch "Unexpected token <") backend_url
      "Cannot destructure property 'userId' of null"
      (Client.mkEnv _
         (mkDeployment empty_db (clock sample_deployment)
            (Client.Responded false 429
               (Client.Parsed (JObject [("message", JString "Too many requests")]))))
         Client.initial_ui [] [])
    = (Client.mkEnv _
         (mkDeployment empty_db (clock sample_deployment)
            (Client.Responded false 429
               (Client.Parsed (JObject [("message", JString "Too many requests")]))))
         (Client.mkUi (Client.ui_cats Client.initial_ui)
            (Client.ui_winner Client.initial_ui) false (Some "API Error: 400"))
         ([] ++ added)
         ([] ++ [cats_call; external_call;
                 seed_call (JObject [("message", JString "Too many requests")])]),
       Client.Returned tt).
Proof.
  apply (cold_start_without_cats "Unexpected token <"
           "Cannot destructure property 'userId' of null"
           (mkDeployment empty_db (clock sample_deployment)
              (Client.Responded false 429
                 (Client.Parsed (JObject [("message", JString "Too many requests")]))))
           Client.initial_ui [] []
           (JObject [("message", JString "Too many requests")]) false 429).
  - reflexivity.
  - reflexivity.
  - left. reflexivity.
Defined.

Lemma warm_start_witness :
  exists added,
    Client.fetchCats deployment (backend_fetch "Unexpected token <") backend_url
      "Cannot destructure property 'userId' of null"
      (Client.mkEnv _ stocked_deployment Client.initial_ui [] [])
    = (Client.mkEnv _ stocked_deployment
         (Client.mkUi (list_json (served_db stocked_deployment))
            (Client.ui_winner Client.initial_ui) false None)
         ([] ++ added)
         ([] ++ [cats_call]),
       Client.Returned tt).
Proof.
  apply (warm_start "Unexpected token <" "Cannot destructure property 'userId' of null"
           stocked_deployment Client.initial_ui [] []).
  - exact sample_db_ids_unique.
  - discriminate.
Defined.

Lemma vote_end_to_end_witness :
  exists added,
    Client.submitVote deployment (backend_fetch "Unexpected token <") backend_url
      "Cannot destructure property 'userId' of null" 2 "upvote"
      (Client.mkEnv _ stocked_deployment Client.initial_ui [] [])
    = (Client.mkEnv _
         (mkDeployment (after_vote (served_db stocked_deployment) 2 "upvote")
            (clock stocked_deployment) (cat_api stocked_deployment))
         (Client.mkUi
            (list_json (after_vote (served_db stocked_deployment) 2 "upvote"))
            (winner_json (after_vote (served_db stocked_deployment) 2 "upvote")
               (clock stocked_deployment))
            false None)
         ([] ++ added)
         ([] ++ [vote_call 2 "upvote"; cats_call; winner_call]),
       Client.Returned tt).
Proof.
  apply (vote_end_to_end "Unexpected token <"
           "Cannot destructure property 'userId' of null"
           stocked_deployment Client.initial_ui [] [] 2 "upvote").
  - exact sample_db_ids_unique.
  - discriminate.
  - simpl. auto.
  - left. reflexivity.
Defined.

Lemma vote_refused_end_to_end_witness :
  exists added,
    Client.submitVote deployment (backend_fetch "Unexpected token <") backend_url
      "Cannot destructure property 'userId' of null" 7 "downvote"
      (Client.mkEnv _ stocked_deployment Client.initial_ui [] [])
    = (Client.mkEnv _ stocked_deployment
         (Client.mkUi (Client.ui_cats Client.initial_ui)
            (Client.ui_winner Client.initial_ui) (Client.ui_loading Client.initial_ui)
            (Some "API Error: 500"))
         ([] ++ added)
         ([] ++ [vote_call 7 "downvote"]),
       Client.Returned tt).
Proof.
  apply (vote_refused_end_to_end "Unexpected token <"
           "Cannot destructure property 'userId' of null"
           stocked_deployment Client.initial_ui [] [] 7 "downvote").
  - discriminate.
  - simpl. intros [H | [H | [H | []]]]; discriminate H.
  - right. reflexivity.
Defined.
